(** * A shallow embedding of peterbourgon/eventsource

    The Go package has three parts: the [Decoder] (decoder.go), the
    [Encoder] (encoder.go) and the reconnecting [EventSource] client
    (eventsource.go).  Go byte slices and Go strings are both modelled as
    [bytes], a list of 8-bit characters. *)

From Stdlib Require Import List Ascii String Bool Arith ZArith Lia.
Import ListNotations.
Open Scope list_scope.

Abbreviation bytes := (list ascii).

(** Byte literals written as Rocq strings. *)
Definition bs (s : string) : bytes := list_ascii_of_string s.

Definition nl : ascii := ascii_of_nat 10.
Definition cr : ascii := ascii_of_nat 13.
Definition colon_c : ascii := ":"%char.
Definition space_c : ascii := " "%char.

Definition ascii_eqb (a b : ascii) : bool := Ascii.eqb a b.

Fixpoint bytes_eqb (a b : bytes) : bool :=
  match a, b with
  | [], [] => true
  | x :: a', y :: b' => ascii_eqb x y && bytes_eqb a' b'
  | _, _ => false
  end.

Definition is_empty (b : bytes) : bool :=
  match b with [] => true | _ => false end.

(** ** Errors

    [errors.New] sentinels are constructors; [fmt.Errorf] with [%w] is
    [Wrap], [fmt.Errorf] without [%w] is [Errorf]; any other error of the
    underlying stream or transport is [IOError n]. *)
Inductive error : Type :=
| EOF                                (* io.EOF *)
| ErrClosed                          (* eventsource.ErrClosed *)
| ErrInvalidEncoding                 (* eventsource.ErrInvalidEncoding *)
| Canceled                           (* context.Canceled *)
| IOError (n : nat)
| Wrap (msg : string) (inner : error)
| Errorf (format : string) (arg : bytes).

Definition error_eq_dec : forall x y : error, {x = y} + {x <> y}.
Proof.
  decide equality;
    first [ apply string_dec | apply Nat.eq_dec | apply list_eq_dec, ascii_dec ].
Defined.

(** errors.Is: equality, then the [Unwrap] chain. *)
Fixpoint errors_is (e target : error) : bool :=
  if error_eq_dec e target then true
  else match e with
       | Wrap _ inner => errors_is inner target
       | _ => false
       end.

(** ** unicode/utf8.Valid

    Go's validator: an ASCII byte stands for itself; otherwise the leading
    byte selects (through the [first] and [acceptRanges] tables) the size of
    the sequence and the range of its second byte; later bytes are
    continuation bytes 0x80..0xBF. *)
Inductive lead_class : Type :=
| Lead2 (lo hi : nat)
| Lead3 (lo hi : nat)
| Lead4 (lo hi : nat)
| LeadBad.

Definition first_class (c : ascii) : lead_class :=
  let x := nat_of_ascii c in
  if x <? 194 then LeadBad                 (* 0x80..0xC1 *)
  else if x <=? 223 then Lead2 128 191     (* 0xC2..0xDF *)
  else if x =? 224 then Lead3 160 191      (* 0xE0 *)
  else if x <=? 236 then Lead3 128 191     (* 0xE1..0xEC *)
  else if x =? 237 then Lead3 128 159      (* 0xED *)
  else if x <=? 239 then Lead3 128 191     (* 0xEE..0xEF *)
  else if x =? 240 then Lead4 144 191      (* 0xF0 *)
  else if x <=? 243 then Lead4 128 191     (* 0xF1..0xF3 *)
  else if x =? 244 then Lead4 128 143      (* 0xF4 *)
  else LeadBad.                            (* 0xF5..0xFF *)

Definition in_range (lo hi : nat) (c : ascii) : bool :=
  (lo <=? nat_of_ascii c) && (nat_of_ascii c <=? hi).

Definition cont (c : ascii) : bool := in_range 128 191 c.

Fixpoint utf8_valid (l : bytes) : bool :=
  match l with
  | [] => true
  | c :: t =>
      if nat_of_ascii c <? 128 then utf8_valid t else
      match first_class c, t with
      | Lead2 lo hi, c1 :: t1 => in_range lo hi c1 && utf8_valid t1
      | Lead3 lo hi, c1 :: c2 :: t2 =>
          in_range lo hi c1 && cont c2 && utf8_valid t2
      | Lead4 lo hi, c1 :: c2 :: c3 :: t3 =>
          in_range lo hi c1 && cont c2 && cont c3 && utf8_valid t3
      | _, _ => false
      end
  end.

(** ** Byte-slice helpers of the Go standard library *)

(** bytes.Cut(s, ":"): the text before and after the first colon; when
    there is none, the whole slice and nil. *)
Fixpoint cut (l : bytes) : bytes * bytes :=
  match l with
  | [] => ([], [])
  | c :: t =>
      if ascii_eqb c colon_c then ([], t)
      else let '(a, b) := cut t in (c :: a, b)
  end.

(** bytes.Split(s, "\n"): n separators give n+1 pieces. *)
Fixpoint split_nl (l : bytes) : list bytes :=
  match l with
  | [] => [[]]
  | c :: t =>
      if ascii_eqb c nl then [] :: split_nl t
      else match split_nl t with
           | h :: rest => (c :: h) :: rest
           | [] => [[c]]
           end
  end.

(** Drop one trailing carriage return: the encoder's
    [line[:len(line)-1]] and bufio's "\r\n" handling. *)
Fixpoint trim_cr (l : bytes) : bytes :=
  match l with
  | [] => []
  | [c] => if ascii_eqb c cr then [] else [c]
  | c :: t => c :: trim_cr t
  end.

(** ** The input stream

    A [bufio.Reader] over an [io.Reader]: the bytes still to be delivered,
    then the error every further read returns ([io.EOF] or a connection
    error).  The 4096-byte buffer is not modelled: [ReadField] concatenates
    the prefixes of an over-long line, so a logical line is the same with
    any buffer size. *)
Record Stream : Type := mkStream { sbytes : bytes; serr : error }.

(** The text before the first newline and, if there is one, the rest. *)
Fixpoint break_nl (l : bytes) : bytes * option bytes :=
  match l with
  | [] => ([], None)
  | c :: t =>
      if ascii_eqb c nl then ([], Some t)
      else let '(a, b) := break_nl t in (c :: a, b)
  end.

(** The logical line of [ReadField]'s [ReadLine] loop: up to "\n" (which
    is dropped, with a "\r" before it); at the end of the data, the rest;
    once the data is exhausted, the stream's error. *)
Definition readLine (s : Stream) : (bytes * Stream) + error :=
  match sbytes s with
  | [] => inr (serr s)
  | _ =>
      match break_nl (sbytes s) with
      | (line, Some rest) => inl (trim_cr line, mkStream rest (serr s))
      | (line, None) => inl (line, mkStream [] (serr s))
      end
  end.

(** ** Event *)
Record Event : Type := mkEvent {
  Type_ : bytes;   (* Go field [Type] *)
  ID : bytes;
  Retry : bytes;
  Data : bytes;
  ResetID : bool }.

Definition zero_event : Event := mkEvent [] [] [] [] false.

Definition set_Type (e : Event) (v : bytes) : Event :=
  mkEvent v (ID e) (Retry e) (Data e) (ResetID e).
Definition set_ID (e : Event) (v : bytes) : Event :=
  mkEvent (Type_ e) v (Retry e) (Data e) (ResetID e).
Definition set_Retry (e : Event) (v : bytes) : Event :=
  mkEvent (Type_ e) (ID e) v (Data e) (ResetID e).
Definition set_Data (e : Event) (v : bytes) : Event :=
  mkEvent (Type_ e) (ID e) (Retry e) v (ResetID e).
Definition set_ResetID (e : Event) (v : bool) : Event :=
  mkEvent (Type_ e) (ID e) (Retry e) (Data e) v.

(** ** Decoder (decoder.go) *)
Module Dec.

Record Decoder : Type := mkDecoder { r : Stream; checkedBOM : bool }.

Definition NewDecoder (s : Stream) : Decoder := mkDecoder s false.

(** checkBOM: ReadRune; a rune other than U+FEFF (UTF-8 EF BB BF) is
    unread; on a read error the flag stays unset. *)
Definition checkBOM (d : Decoder) : Decoder :=
  match sbytes (r d) with
  | [] => d
  | c1 :: t1 =>
      match t1 with
      | c2 :: c3 :: t3 =>
          if (nat_of_ascii c1 =? 239) && (nat_of_ascii c2 =? 187)
             && (nat_of_ascii c3 =? 191)
          then mkDecoder (mkStream t3 (serr (r d))) true
          else mkDecoder (r d) true
      | _ => mkDecoder (r d) true
      end
  end.

(** ReadField: the decoder afterwards, the field, the value, the error. *)
Definition ReadField (d : Decoder) : Decoder * bytes * bytes * option error :=
  let d := if checkedBOM d then d else checkBOM d in
  match readLine (r d) with
  | inr e => (d, [], [], Some e)
  | inl (buf, rest) =>
      let d := mkDecoder rest (checkedBOM d) in
      match buf with
      | [] => (d, [], [], None)
      | _ =>
          let '(f, v) := cut buf in
          let v := match v with
                   | c :: v' => if ascii_eqb c space_c then v' else v
                   | [] => v
                   end in
          if utf8_valid f && utf8_valid v then (d, f, v, None)
          else (d, [], [], Some ErrInvalidEncoding)
      end
  end.

(** The [switch field] of Decode, with the local [wroteData]. *)
Definition apply_field (f v : bytes) (wroteData : bool) (e : Event)
  : Event * bool :=
  if bytes_eqb f (bs "id") then
    let e := set_ID e v in
    ((if is_empty (ID e) then set_ResetID e true else e), wroteData)
  else if bytes_eqb f (bs "retry") then (set_Retry e v, wroteData)
  else if bytes_eqb f (bs "event") then (set_Type e v, wroteData)
  else if bytes_eqb f (bs "data") then
    let e := if wroteData then set_Data e (Data e ++ [nl]) else e in
    (set_Data e (Data e ++ v), true)
  else (e, wroteData).

(** The [for] loop of Decode.  Every pass that does not return consumes
    at least one byte, so [S (length input)] passes always suffice
    ([ReadField_length] below); the [0] case is never reached from
    [Decode]. *)
Fixpoint decode_loop (fuel : nat) (d : Decoder) (wroteData : bool) (e : Event)
  : Decoder * Event * option error :=
  match fuel with
  | 0 => (d, e, None)
  | S n =>
      match ReadField d with
      | (d1, _, _, Some err) => (d1, e, Some (Wrap "read field" err))
      | (d1, f, v, None) =>
          if is_empty f && is_empty v then (d1, e, None)
          else let '(e1, w1) := apply_field f v wroteData e in
               decode_loop n d1 w1 e1
      end
  end.

(** Decode(&e): the decoder afterwards, the event [*e] afterwards, the
    returned error. *)
Definition Decode (d : Decoder) (e : Event) : Decoder * Event * option error :=
  decode_loop (S (List.length (sbytes (r d)))) d false (set_Type e (bs "message")).

End Dec.

(** ** Encoder (encoder.go)

    The sink is an in-memory buffer whose writes do not fail; an encoding
    step yields the bytes it wrote and its error. *)
Module Enc.

Definition W : Type := bytes * option error.

Definition wseq (a : W) (k : unit -> W) : W :=
  match a with
  | (o, Some e) => (o, Some e)
  | (o, None) => let '(o', res) := k tt in (o ++ o', res)
  end.

Notation "a ;; b" := (wseq a (fun _ => b)) (at level 61, right associativity).

Definition ret : W := ([], None).

(** writeField: "name\n" for an empty value, "name: value\n" otherwise. *)
Definition writeField (field value : bytes) : W :=
  if is_empty value then (field ++ [nl], None)
  else (field ++ bs ": " ++ value ++ [nl], None).

Fixpoint write_lines (field : bytes) (lines : list bytes) : W :=
  match lines with
  | [] => ret
  | line :: rest => writeField field (trim_cr line) ;; write_lines field rest
  end.

Definition WriteField (field value : bytes) : W :=
  if utf8_valid field && utf8_valid value then write_lines field (split_nl value)
  else ([], Some ErrInvalidEncoding).

(** Flush: the blank line that ends the event. *)
Definition Flush : W := ([nl], None).

Definition Encode (event : Event) : W :=
  (if ResetID event || negb (is_empty (ID event))
   then WriteField (bs "id") (ID event) else ret) ;;
  (if negb (is_empty (Retry event))
   then WriteField (bs "retry") (Retry event) else ret) ;;
  (if negb (is_empty (Type_ event))
   then WriteField (bs "event") (Type_ event) else ret) ;;
  WriteField (bs "data") (Data event) ;;
  Flush.

End Enc.

(** ** strconv.Atoi and time.Duration

    Atoi accepts an optional sign followed by at least one decimal digit,
    with the value in the range of a 64-bit [int]. *)
Fixpoint digits_value (acc : Z) (l : bytes) : option Z :=
  match l with
  | [] => Some acc
  | c :: t =>
      let x := nat_of_ascii c in
      if (48 <=? x) && (x <=? 57)
      then digits_value (acc * 10 + Z.of_nat (x - 48))%Z t
      else None
  end.

Definition int64_min : Z := (- 2 ^ 63)%Z.
Definition int64_max : Z := (2 ^ 63 - 1)%Z.

Definition Atoi (s : bytes) : option Z :=
  let '(neg, ds) :=
    match s with
    | c :: t => if ascii_eqb c "-"%char then (true, t)
                else if ascii_eqb c "+"%char then (false, t)
                else (false, s)
    | [] => (false, s)
    end in
  match ds with
  | [] => None
  | _ =>
      match digits_value 0 ds with
      | None => None
      | Some n =>
          let v := if neg then (- n)%Z else n in
          if (int64_min <=? v)%Z && (v <=? int64_max)%Z then Some v else None
      end
  end.

(** Two's-complement wrap-around of an int64 product. *)
Definition wrap64 (z : Z) : Z := ((z + 2 ^ 63) mod 2 ^ 64 - 2 ^ 63)%Z.

(** time.Millisecond, in nanoseconds. *)
Definition Millisecond : Z := 1000000.

(** ** The client (eventsource.go) *)

(** A response of the HTTP transport; the body is identified by the
    number of the attempt that returned it. *)
Record Response : Type := mkResponse {
  StatusCode : Z;
  Status : bytes;          (* resp.Status, e.g. "404 Not Found" *)
  ContentType : bytes;     (* resp.Header.Get("content-type") *)
  Body : Stream }.

(** The result of [client.Do(request)]. *)
Inductive outcome : Type :=
| DoErr (e : error)
| DoResp (resp : Response).

(** The externally visible actions of the client. *)
Inductive effect : Type :=
| ECloseBody (attempt : nat)                 (* Body.Close() *)
| ESleep (d : Z)                             (* <-time.After(d) *)
| EDo (attempt : nat) (last_event_id : option bytes).
  (* client.Do(request), with the request's Last-Event-Id header *)

Module ES.

Record EventSource : Type := mkES {
  retry : Z;                       (* time.Duration, nanoseconds *)
  err : option error;
  r : option nat;                  (* the open body, by attempt number *)
  dec : Dec.Decoder;
  lastEventID : bytes;
  hdr_last_event_id : option bytes;  (* request.Header "Last-Event-Id" *)
  attempts : nat }.                (* calls of client.Do so far *)

Definition set_err (s : EventSource) (e : option error) : EventSource :=
  mkES (retry s) e (r s) (dec s) (lastEventID s) (hdr_last_event_id s) (attempts s).
Definition set_dec (s : EventSource) (d : Dec.Decoder) : EventSource :=
  mkES (retry s) (err s) (r s) d (lastEventID s) (hdr_last_event_id s) (attempts s).
Definition set_retry (s : EventSource) (x : Z) : EventSource :=
  mkES x (err s) (r s) (dec s) (lastEventID s) (hdr_last_event_id s) (attempts s).
Definition set_lastEventID (s : EventSource) (x : bytes) : EventSource :=
  mkES (retry s) (err s) (r s) (dec s) x (hdr_last_event_id s) (attempts s).
Definition set_hdr (s : EventSource) (x : bytes) : EventSource :=
  mkES (retry s) (err s) (r s) (dec s) (lastEventID s) (Some x) (attempts s).
Definition set_attempts (s : EventSource) (k : nat) : EventSource :=
  mkES (retry s) (err s) (r s) (dec s) (lastEventID s) (hdr_last_event_id s) k.
Definition set_body (s : EventSource) (k : nat) (d : Dec.Decoder) : EventSource :=
  mkES (retry s) (err s) (Some k) d (lastEventID s) (hdr_last_event_id s) (attempts s).

(** NewConfig.  [dec] stands for the nil [*Decoder]; it is replaced by
    [connect] before any decode. *)
Definition NewConfig (retry : Z) : EventSource :=
  mkES (if (retry <=? 0)%Z then 1000 * Millisecond else retry)%Z
       None None (Dec.NewDecoder (mkStream [] EOF)) [] None 0.

Section Client.

(** The transport: the outcome of the [k]-th call of [client.Do], given
    the Last-Event-Id header the request carries. *)
Variable transport : nat -> bytes -> outcome.

(** The media type returned by [mime.ParseMediaType] ("" on failure). *)
Variable parse_media_type : bytes -> bytes.

(** Close. *)
Definition Close (s : EventSource) : EventSource * list effect :=
  (set_err s (Some ErrClosed),
   match r s with Some k => [ECloseBody k] | None => [] end).

(** One pass of the [for es.err == nil] loop of connect; the boolean says
    whether the pass ends with [return]. *)
Definition connect_step (s : EventSource) : EventSource * list effect * bool :=
  let pre := match r s with
             | Some k => [ECloseBody k; ESleep (retry s)]
             | None => []
             end in
  let s := set_hdr s (lastEventID s) in
  let k := attempts s in
  let out := transport k (lastEventID s) in
  let log := pre ++ [EDo k (hdr_last_event_id s)] in
  let s := set_attempts s (S k) in
  match out with
  | DoErr e =>
      if errors_is e Canceled then (set_err s (Some e), log, false)
      else (s, log, false)
  | DoResp resp =>
      if (500 <=? StatusCode resp)%Z then (s, log ++ [ECloseBody k], false)
      else if (StatusCode resp =? 204)%Z then
        (set_err s (Some ErrClosed), log ++ [ECloseBody k], false)
      else if (StatusCode resp =? 200)%Z then
        if bytes_eqb (parse_media_type (ContentType resp)) (bs "text/event-stream")
        then (set_body s k (Dec.NewDecoder (Body resp)), log, true)
        else (set_err s (Some (Errorf "invalid response Content-Type (%s)"
                                       (ContentType resp))),
              log ++ [ECloseBody k], false)
      else (set_err s (Some (Errorf "endpoint returned unrecoverable status %s"
                                    (Status resp))), log, false)
  end.

(** connect.  The loop may run for ever (a server that always answers
    500); [fuel] bounds the passes and [None] means it is still running. *)
Fixpoint connect (fuel : nat) (s : EventSource) : option (EventSource * list effect) :=
  match err s with
  | Some _ => Some (s, [])
  | None =>
      match fuel with
      | 0 => None
      | S n =>
          let '(s1, l1, done) := connect_step s in
          if done then Some (s1, l1)
          else match connect n s1 with
               | Some (s2, l2) => Some (s2, l1 ++ l2)
               | None => None
               end
      end
  end.

Definition after (l : list effect) (res : option (Event * option error * EventSource * list effect))
  : option (Event * option error * EventSource * list effect) :=
  match res with
  | Some (e, er, s, l') => Some (e, er, s, l ++ l')
  | None => None
  end.

(** The [for es.err == nil] loop of Read. *)
Fixpoint read_loop (fuel : nat) (s : EventSource)
  : option (Event * option error * EventSource * list effect) :=
  match err s with
  | Some e => Some (zero_event, Some e, s, [])
  | None =>
      match fuel with
      | 0 => None
      | S n =>
          let '(d1, e, res) := Dec.Decode (dec s) zero_event in
          let s := set_dec s d1 in
          match res with
          | Some er =>
              if errors_is er ErrInvalidEncoding then read_loop n s
              else match connect n s with
                   | Some (s1, l1) => after l1 (read_loop n s1)
                   | None => None
                   end
          | None =>
              if is_empty (Data e) then read_loop n s
              else
                let s := if negb (is_empty (ID e)) || ResetID e
                         then set_lastEventID s (ID e) else s in
                let s := if negb (is_empty (Retry e))
                         then match Atoi (Retry e) with
                              | Some v => set_retry s (wrap64 (v * Millisecond))
                              | None => s
                              end
                         else s in
                Some (e, None, s, [])
          end
      end
  end.

(** Read: the event, the error, the client afterwards, the effects. *)
Definition Read (fuel : nat) (s : EventSource)
  : option (Event * option error * EventSource * list effect) :=
  match r s with
  | None =>
      match connect fuel s with
      | Some (s1, l1) => after l1 (read_loop fuel s1)
      | None => None
      end
  | Some _ => read_loop fuel s
  end.

(** [n] successive calls of Read. *)
Fixpoint reads (n fuel : nat) (s : EventSource)
  : option (list (Event * option error) * EventSource * list effect) :=
  match n with
  | 0 => Some ([], s, [])
  | S m =>
      match Read fuel s with
      | Some (e, er, s1, l1) =>
          match reads m fuel s1 with
          | Some (res, s2, l2) => Some ((e, er) :: res, s2, l1 ++ l2)
          | None => None
          end
      | None => None
      end
  end.

End Client.

End ES.

(** ** Auxiliary definitions for the statements below *)

(** The inverse of [split_nl]: the pieces joined with "\n". *)
Fixpoint join_nl (segs : list bytes) : bytes :=
  match segs with
  | [] => []
  | [s] => s
  | s :: ss => s ++ nl :: join_nl ss
  end.

(** The bytes of a list of [writeField] lines. *)
Fixpoint line_bytes (fs : list (bytes * bytes)) : bytes :=
  match fs with
  | [] => []
  | (f, v) :: fs' => fst (Enc.writeField f v) ++ line_bytes fs'
  end.

(** Decode's field dispatch over a list of fields. *)
Fixpoint apply_fields (fs : list (bytes * bytes)) (w : bool) (e : Event) : Event * bool :=
  match fs with
  | [] => (e, w)
  | (f, v) :: fs' =>
      let '(e1, w1) := Dec.apply_field f v w e in apply_fields fs' w1 e1
  end.

(** A field name that [ReadField] reads back from its line. *)
Definition good_name (f : bytes) : Prop :=
  f <> [] /\ ~ In colon_c f /\ ~ In nl f /\ utf8_valid f = true /\ trim_cr f = f.

(** A value that fits on one line and survives the trailing-"\r" trimming. *)
Definition good_value (v : bytes) : Prop :=
  ~ In nl v /\ trim_cr v = v /\ utf8_valid v = true.

Definition opt_field (b : bool) (f v : bytes) : list (bytes * bytes) :=
  if b then [(f, v)] else [].

(** The fields [Encode] writes for an event whose values fit on a line. *)
Definition encoded_fields (E : Event) : list (bytes * bytes) :=
  opt_field (ResetID E || negb (is_empty (ID E))) (bs "id") (ID E) ++
  opt_field (negb (is_empty (Retry E))) (bs "retry") (Retry E) ++
  opt_field (negb (is_empty (Type_ E))) (bs "event") (Type_ E) ++
  map (fun l => (bs "data", l)) (split_nl (Data E)).

(** [rf_steps d dk]: starting from [d], Decode's loop reaches [dk] by
    calls of [ReadField] that neither fail nor read an event boundary. *)
Inductive rf_steps : Dec.Decoder -> Dec.Decoder -> Prop :=
| rf_refl d : rf_steps d d
| rf_step d d1 d2 f v :
    Dec.ReadField d = (d1, f, v, None) ->
    is_empty f && is_empty v = false ->
    rf_steps d1 d2 -> rf_steps d d2.

(** Concrete transports for the examples: a 200 response carrying an
    event stream, and a response with a bare status. *)
Definition stream_response (body : bytes) : outcome :=
  DoResp (mkResponse 200 (bs "200 OK") (bs "text/event-stream") (mkStream body EOF)).

Definition status_response (code : Z) (status : string) : outcome :=
  DoResp (mkResponse code (bs status) [] (mkStream [] EOF)).

(** The media type of a Content-Type value without parameters. *)
Definition plain_media_type (ct : bytes) : bytes := ct.

(** Attempt 0 answers 500, later attempts a 200 event stream. *)
Definition flaky_transport (body : bytes) (k : nat) (_ : bytes) : outcome :=
  match k with
  | 0 => status_response 500 "500 Internal Server Error"
  | _ => stream_response body
  end.

(** The UTF-8 encoding of the byte-order mark U+FEFF. *)
Definition utf8_bom : bytes := [ascii_of_nat 239; ascii_of_nat 187; ascii_of_nat 191].

(** The lines [WriteField f v] writes: one per newline-separated piece of
    [v], with one trailing "\r" removed. *)
Definition field_lines (f v : bytes) : list (bytes * bytes) :=
  map (fun l => (f, trim_cr l)) (split_nl v).

(** The lines [Encode] writes for an event when it succeeds. *)
Definition written_fields (E : Event) : list (bytes * bytes) :=
  (if ResetID E || negb (is_empty (ID E)) then field_lines (bs "id") (ID E) else []) ++
  (if negb (is_empty (Retry E)) then field_lines (bs "retry") (Retry E) else []) ++
  (if negb (is_empty (Type_ E)) then field_lines (bs "event") (Type_ E) else []) ++
  field_lines (bs "data") (Data E).

(** Every field [Encode] writes is valid UTF-8. *)
Definition encodable (E : Event) : bool :=
  (negb (ResetID E || negb (is_empty (ID E))) || utf8_valid (ID E)) &&
  (negb (negb (is_empty (Retry E))) || utf8_valid (Retry E)) &&
  (negb (negb (is_empty (Type_ E))) || utf8_valid (Type_ E)) &&
  utf8_valid (Data E).


(** A line as the encoder writes it: a field name [ReadField] reads back,
    a value on one line, valid UTF-8. *)
Definition written_line (fv : bytes * bytes) : Prop :=
  good_name (fst fv) /\ ~ In nl (snd fv) /\ utf8_valid (snd fv) = true.

(** * Lemmas on the byte-level helpers *)

Lemma ascii_eqb_true (a b : ascii) : ascii_eqb a b = true <-> a = b.
Proof. unfold ascii_eqb. apply Ascii.eqb_eq. Qed.

Lemma ascii_eqb_refl (a : ascii) : ascii_eqb a a = true.
Proof. apply ascii_eqb_true. reflexivity. Qed.

Lemma ascii_eqb_false (a b : ascii) : a <> b -> ascii_eqb a b = false.
Proof.
  intro H. destruct (ascii_eqb a b) eqn:E; [|reflexivity].
  apply ascii_eqb_true in E. contradiction.
Qed.

Lemma first_class_lo (c : ascii) lo hi :
  (first_class c = Lead2 lo hi \/ first_class c = Lead3 lo hi
   \/ first_class c = Lead4 lo hi) -> 128 <= lo.
Proof.
  unfold first_class.
  repeat match goal with |- context [if ?b then _ else _] => destruct b end;
    intros [H|[H|H]]; inversion H; lia.
Qed.

Lemma in_range_nl (lo hi : nat) : 128 <= lo -> in_range lo hi nl = false.
Proof.
  intro H. unfold in_range. replace (nat_of_ascii nl) with 10 by reflexivity.
  destruct (lo <=? 10) eqn:E; [apply Nat.leb_le in E; lia | reflexivity].
Qed.

Lemma cont_nl : cont nl = false.
Proof. reflexivity. Qed.

(** A newline (an ASCII byte, never part of a multi-byte sequence) splits
    the validity of UTF-8 text. *)
Lemma utf8_valid_app_nl (a b : bytes) :
  utf8_valid (a ++ nl :: b) = utf8_valid a && utf8_valid b.
Proof.
  remember (List.length a) as n eqn:Hn. revert a Hn.
  induction n as [n IH] using lt_wf_ind. intros a Hn.
  destruct a as [|c t]; [reflexivity|].
  cbn [app utf8_valid].
  destruct (nat_of_ascii c <? 128) eqn:Ha.
  { apply (IH (List.length t)); cbn in Hn; [lia | reflexivity]. }
  destruct (first_class c) as [lo hi|lo hi|lo hi|] eqn:Hf; [..|reflexivity].
  - assert (128 <= lo) by (apply (first_class_lo c lo hi); auto).
    destruct t as [|c1 t1]; cbn [app].
    + rewrite in_range_nl by assumption.
      destruct b as [|? [|? [|? ?]]]; reflexivity.
    + rewrite (IH (List.length t1)) by (cbn in Hn; lia). apply andb_assoc.
  - assert (128 <= lo) by (apply (first_class_lo c lo hi); auto).
    destruct t as [|c1 [|c2 t2]]; cbn [app].
    + rewrite in_range_nl by assumption.
      destruct b as [|? [|? [|? ?]]]; reflexivity.
    + rewrite ?cont_nl, ?andb_false_r.
      destruct b as [|? [|? [|? ?]]]; cbn; rewrite ?andb_false_r; reflexivity.
    + rewrite (IH (List.length t2)) by (cbn in Hn; lia).
      rewrite !andb_assoc. reflexivity.
  - assert (128 <= lo) by (apply (first_class_lo c lo hi); auto).
    destruct t as [|c1 [|c2 [|c3 t3]]]; cbn [app].
    + rewrite in_range_nl by assumption.
      destruct b as [|? [|? [|? ?]]]; reflexivity.
    + rewrite ?cont_nl, ?andb_false_r.
      destruct b as [|? [|? [|? ?]]]; cbn; rewrite ?andb_false_r; reflexivity.
    + rewrite ?cont_nl, ?andb_false_r.
      destruct b as [|? [|? [|? ?]]]; cbn; rewrite ?andb_false_r; reflexivity.
    + rewrite (IH (List.length t3)) by (cbn in Hn; lia).
      rewrite !andb_assoc. reflexivity.
Qed.

Lemma split_nl_not_nil (l : bytes) : split_nl l <> [].
Proof.
  intro H. destruct l as [|c t]; cbn [split_nl] in H; [discriminate H|].
  destruct (ascii_eqb c nl); [discriminate H|].
  destruct (split_nl t); discriminate H.
Qed.

Lemma join_nl_cons_head (c : ascii) (h : bytes) (rest : list bytes) :
  join_nl ((c :: h) :: rest) = c :: join_nl (h :: rest).
Proof. destruct rest; reflexivity. Qed.

Lemma join_split_nl (l : bytes) : join_nl (split_nl l) = l.
Proof.
  induction l as [|c t IH]; [reflexivity|].
  cbn [split_nl]. destruct (ascii_eqb c nl) eqn:E.
  - apply ascii_eqb_true in E. subst c.
    pose proof (split_nl_not_nil t) as Hn.
    destruct (split_nl t) as [|s ss] eqn:Hs; [contradiction|].
    cbn. rewrite <- IH. reflexivity.
  - pose proof (split_nl_not_nil t) as Hn.
    destruct (split_nl t) as [|h rest]; [contradiction|].
    rewrite join_nl_cons_head, IH. reflexivity.
Qed.

Lemma split_nl_single (l : bytes) : ~ In nl l -> split_nl l = [l].
Proof.
  induction l as [|c t IH]; intro H; [reflexivity|].
  cbn. rewrite ascii_eqb_false by (intro; subst; apply H; left; reflexivity).
  rewrite IH by (intro; apply H; right; assumption). reflexivity.
Qed.

Lemma utf8_valid_join (s : bytes) (ss : list bytes) :
  utf8_valid (join_nl (s :: ss)) = utf8_valid s && forallb utf8_valid ss.
Proof.
  revert s. induction ss as [|s' ss IH]; intro s.
  - cbn. rewrite andb_true_r. reflexivity.
  - change (join_nl (s :: s' :: ss)) with (s ++ nl :: join_nl (s' :: ss)).
    rewrite utf8_valid_app_nl, IH. reflexivity.
Qed.

Lemma utf8_valid_split (l : bytes) :
  utf8_valid l = true -> Forall (fun s => utf8_valid s = true) (split_nl l).
Proof.
  intro H. rewrite <- (join_split_nl l) in H.
  pose proof (split_nl_not_nil l) as Hn.
  destruct (split_nl l) as [|s ss]; [contradiction|].
  rewrite utf8_valid_join in H. apply andb_true_iff in H as [H1 H2].
  constructor; [assumption|]. apply Forall_forall. intros x Hx.
  exact (proj1 (forallb_forall utf8_valid ss) H2 x Hx).
Qed.

Lemma trim_cr_cons (c : ascii) (x : bytes) : x <> [] -> trim_cr (c :: x) = c :: trim_cr x.
Proof. destruct x; [contradiction | reflexivity]. Qed.

Lemma trim_cr_app (a b : bytes) : b <> [] -> trim_cr (a ++ b) = a ++ trim_cr b.
Proof.
  intro Hb. induction a as [|c a IH]; [reflexivity|].
  cbn [app]. rewrite trim_cr_cons, IH; [reflexivity|].
  destruct a, b; cbn; congruence.
Qed.

Lemma cut_no_colon (f : bytes) : ~ In colon_c f -> cut f = (f, []).
Proof.
  induction f as [|c f IH]; intro H; [reflexivity|].
  cbn. rewrite ascii_eqb_false by (intro; subst; apply H; left; reflexivity).
  rewrite IH by (intro; apply H; right; assumption). reflexivity.
Qed.

Lemma cut_app_colon (f t : bytes) : ~ In colon_c f -> cut (f ++ colon_c :: t) = (f, t).
Proof.
  induction f as [|c f IH]; intro H; [reflexivity|].
  cbn [app cut]. rewrite ascii_eqb_false by (intro; subst; apply H; left; reflexivity).
  rewrite IH by (intro; apply H; right; assumption). reflexivity.
Qed.

Lemma break_nl_app (a rest : bytes) : ~ In nl a -> break_nl (a ++ nl :: rest) = (a, Some rest).
Proof.
  induction a as [|c a IH]; intro H.
  - cbn [app break_nl]. rewrite ascii_eqb_refl. reflexivity.
  - cbn [app break_nl]. rewrite ascii_eqb_false by (intro; subst; apply H; left; reflexivity).
    rewrite IH by (intro; apply H; right; assumption). reflexivity.
Qed.

(** ** Decoding the lines the encoder writes *)

Lemma writeField_ok (f v : bytes) : Enc.writeField f v = (fst (Enc.writeField f v), None).
Proof. unfold Enc.writeField. destruct (is_empty v); reflexivity. Qed.

Lemma readLine_line (a rest : bytes) (er : error) :
  a <> [] -> ~ In nl a ->
  readLine (mkStream (a ++ nl :: rest) er) = inl (trim_cr a, mkStream rest er).
Proof.
  intros Ha Hn. pose proof (break_nl_app a rest Hn) as Hb.
  unfold readLine. cbn [sbytes serr]. rewrite Hb.
  destruct a; [contradiction | reflexivity].
Qed.

Lemma readField_written (f v rest : bytes) (er : error) :
  good_name f -> good_value v ->
  Dec.ReadField (Dec.mkDecoder (mkStream (fst (Enc.writeField f v) ++ rest) er) true)
  = (Dec.mkDecoder (mkStream rest er) true, f, v, None).
Proof.
  intros (Hf0 & Hfc & Hfn & Hfu & Hfr) (Hvn & Hvr & Hvu).
  unfold Enc.writeField. destruct v as [|c v'].
  - cbn [is_empty fst]. rewrite <- app_assoc. cbn [app].
    unfold Dec.ReadField. cbn [Dec.checkedBOM Dec.r].
    rewrite readLine_line by assumption. rewrite Hfr.
    destruct f as [|c0 f']; [contradiction|].
    rewrite (cut_no_colon (c0 :: f') Hfc). rewrite Hfu. reflexivity.
  - cbn [is_empty fst].
    replace ((f ++ bs ": " ++ (c :: v') ++ [nl]) ++ rest)
      with ((f ++ colon_c :: space_c :: c :: v') ++ nl :: rest)
      by (rewrite <- !app_assoc; reflexivity).
    assert (Hnl : ~ In nl (f ++ colon_c :: space_c :: c :: v')).
    { intro H. apply in_app_or in H as [H|H]; [contradiction|].
      destruct H as [H|[H|H]]; [discriminate H|discriminate H|contradiction]. }
    unfold Dec.ReadField. cbn [Dec.checkedBOM Dec.r].
    rewrite readLine_line
      by first [ assumption
               | destruct f; [contradiction | cbn [app]; congruence] ].
    change (f ++ colon_c :: space_c :: c :: v')
      with (f ++ [colon_c; space_c] ++ (c :: v')).
    rewrite (app_assoc f [colon_c; space_c] (c :: v')).
    rewrite (trim_cr_app _ (c :: v')) by discriminate.
    rewrite Hvr, <- app_assoc.
    change (f ++ [colon_c; space_c] ++ c :: v')
      with (f ++ colon_c :: (space_c :: c :: v')).
    rewrite (cut_app_colon f _ Hfc).
    destruct f as [|c0 f']; [contradiction|].
    cbn [app]. rewrite ascii_eqb_refl, Hfu, Hvu. reflexivity.
Qed.

Lemma decode_loop_S (n : nat) (d : Dec.Decoder) (w : bool) (e : Event) :
  Dec.decode_loop (S n) d w e =
  match Dec.ReadField d with
  | (d1, _, _, Some err) => (d1, e, Some (Wrap "read field" err))
  | (d1, f, v, None) =>
      if is_empty f && is_empty v then (d1, e, None)
      else let '(e1, w1) := Dec.apply_field f v w e in Dec.decode_loop n d1 w1 e1
  end.
Proof. reflexivity. Qed.

Lemma decode_lines (fs : list (bytes * bytes)) :
  Forall (fun fv => good_name (fst fv) /\ good_value (snd fv)) fs ->
  forall n w e rest er, List.length fs < n ->
  Dec.decode_loop n (Dec.mkDecoder (mkStream (line_bytes fs ++ nl :: rest) er) true) w e
  = (Dec.mkDecoder (mkStream rest er) true, fst (apply_fields fs w e), None).
Proof.
  induction 1 as [|[f v] fs [Hf Hv] Hfs IH]; intros n w e rest er Hn;
    (destruct n as [|n]; [cbn in Hn; lia|]); rewrite decode_loop_S.
  - cbn [line_bytes app]. unfold Dec.ReadField, readLine.
    cbn [Dec.checkedBOM Dec.r sbytes serr break_nl].
    rewrite ascii_eqb_refl. reflexivity.
  - cbn [line_bytes]. rewrite <- app_assoc.
    cbn [fst snd] in Hf, Hv. rewrite readField_written by assumption.
    destruct f as [|c f']; [destruct Hf; contradiction|]. cbn [is_empty andb].
    cbn [apply_fields]. destruct (Dec.apply_field (c :: f') v w e) as [e1 w1].
    apply IH. cbn in Hn. lia.
Qed.

Lemma write_lines_out (field : bytes) (lines : list bytes) :
  Enc.write_lines field lines
  = (line_bytes (map (fun l => (field, trim_cr l)) lines), None).
Proof.
  induction lines as [|l lines IH]; [reflexivity|].
  cbn [Enc.write_lines map line_bytes]. unfold Enc.wseq.
  rewrite writeField_ok, IH. reflexivity.
Qed.

Lemma WriteField_out (f v : bytes) :
  utf8_valid f = true -> utf8_valid v = true ->
  Enc.WriteField f v = (line_bytes (map (fun l => (f, trim_cr l)) (split_nl v)), None).
Proof.
  intros Hf Hv. unfold Enc.WriteField. rewrite Hf, Hv. apply write_lines_out.
Qed.

Lemma line_bytes_app (a b : list (bytes * bytes)) :
  line_bytes (a ++ b) = line_bytes a ++ line_bytes b.
Proof.
  induction a as [|[f v] a IH]; [reflexivity|].
  cbn [app line_bytes]. rewrite IH, app_assoc. reflexivity.
Qed.

Lemma line_bytes_length (fs : list (bytes * bytes)) :
  List.length fs <= List.length (line_bytes fs).
Proof.
  induction fs as [|[f v] fs IH]; cbn [line_bytes List.length]; [lia|].
  rewrite length_app.
  assert (1 <= List.length (fst (Enc.writeField f v))).
  { unfold Enc.writeField. destruct (is_empty v); cbn [fst];
      rewrite !length_app; cbn; lia. }
  lia.
Qed.

Lemma apply_fields_app (a b : list (bytes * bytes)) (w : bool) (e : Event) :
  apply_fields (a ++ b) w e =
  let '(e1, w1) := apply_fields a w e in apply_fields b w1 e1.
Proof.
  revert w e. induction a as [|[f v] a IH]; intros w e; [reflexivity|].
  cbn [app apply_fields]. destruct (Dec.apply_field f v w e) as [e1 w1].
  apply IH.
Qed.

Lemma split_nl_no_nl (l : bytes) : Forall (fun s => ~ In nl s) (split_nl l).
Proof.
  induction l as [|c t IH]; cbn [split_nl].
  - constructor; [intro H; destruct H | constructor].
  - destruct (ascii_eqb c nl) eqn:E.
    + constructor; [intro H; destruct H | assumption].
    + destruct (split_nl t) as [|h rest]; [constructor; [|constructor]|].
      * intros [H|H]; [subst; rewrite ascii_eqb_refl in E; discriminate | destruct H].
      * inversion IH as [|? ? Hh Hr]; subst. constructor; [|assumption].
        intros [H|H]; [subst; rewrite ascii_eqb_refl in E; discriminate | contradiction].
Qed.

Lemma join_nl_concat (s : bytes) (ss : list bytes) :
  join_nl (s :: ss) = s ++ List.concat (map (fun x => nl :: x) ss).
Proof.
  revert s. induction ss as [|s' ss IH]; intro s; cbn [map List.concat].
  - rewrite app_nil_r. reflexivity.
  - change (join_nl (s :: s' :: ss)) with (s ++ nl :: join_nl (s' :: ss)).
    rewrite IH. reflexivity.
Qed.

Lemma apply_data_true (segs : list bytes) (e : Event) :
  apply_fields (map (fun l => (bs "data", l)) segs) true e
  = (set_Data e (Data e ++ List.concat (map (fun x => nl :: x) segs)), true).
Proof.
  revert e. induction segs as [|s segs IH]; intro e.
  - cbn. rewrite app_nil_r. destruct e; reflexivity.
  - cbn [map apply_fields]. unfold Dec.apply_field. cbn -[app List.concat map].
    rewrite IH. cbn -[app List.concat map]. rewrite <- !app_assoc. reflexivity.
Qed.

Lemma apply_data_fields (l : bytes) (e : Event) :
  apply_fields (map (fun x => (bs "data", x)) (split_nl l)) false e
  = (set_Data e (Data e ++ l), true).
Proof.
  pose proof (join_split_nl l) as Hj. pose proof (split_nl_not_nil l) as Hn.
  destruct (split_nl l) as [|s ss]; [contradiction|].
  cbn [map apply_fields]. unfold Dec.apply_field. cbn -[app List.concat map].
  rewrite apply_data_true. cbn -[app List.concat map].
  rewrite <- Hj, join_nl_concat, app_assoc. reflexivity.
Qed.

Lemma apply_fields_app_fst (a b : list (bytes * bytes)) (w : bool) (e : Event) :
  fst (apply_fields (a ++ b) w e) =
  fst (apply_fields b (snd (apply_fields a w e)) (fst (apply_fields a w e))).
Proof.
  rewrite apply_fields_app. destruct (apply_fields a w e). reflexivity.
Qed.

Lemma apply_encoded (E : Event) :
  (ResetID E = true -> ID E = []) -> Type_ E <> [] ->
  fst (apply_fields (encoded_fields E) false (set_Type zero_event (bs "message"))) = E.
Proof.
  destruct E as [T I R D RI]; cbn [Type_ ID Retry Data ResetID]; intros HR HT.
  unfold encoded_fields; cbn [Type_ ID Retry Data ResetID].
  destruct T as [|t T]; [contradiction|].
  rewrite !app_assoc, apply_fields_app_fst.
  destruct RI, I as [|i I], R as [|x R];
    try (specialize (HR eq_refl); discriminate HR);
    match goal with
    | |- context [apply_fields (map ?f ?l) (snd ?P) (fst ?P)] =>
        remember P as p eqn:Hp; cbn in Hp; subst p
    end;
    cbn [fst snd]; rewrite apply_data_fields; reflexivity.
Qed.

Lemma WriteField_single (f v : bytes) :
  utf8_valid f = true -> good_value v ->
  Enc.WriteField f v = (line_bytes [(f, v)], None).
Proof.
  intros Hf (Hn & Hr & Hv). rewrite WriteField_out by assumption.
  rewrite split_nl_single by assumption. cbn [map]. rewrite Hr. reflexivity.
Qed.

Lemma opt_write (b : bool) (f v : bytes) :
  utf8_valid f = true -> good_value v ->
  (if b then Enc.WriteField f v else Enc.ret) = (line_bytes (opt_field b f v), None).
Proof.
  intros Hf Hv. destruct b; [apply WriteField_single; assumption | reflexivity].
Qed.

Lemma WriteField_data (l : bytes) :
  utf8_valid l = true -> Forall (fun s => trim_cr s = s) (split_nl l) ->
  Enc.WriteField (bs "data") l
  = (line_bytes (map (fun s => (bs "data", s)) (split_nl l)), None).
Proof.
  intros Hv Ht. rewrite WriteField_out by (reflexivity || assumption).
  f_equal. f_equal. apply map_ext_in. intros s Hs.
  rewrite Forall_forall in Ht. rewrite (Ht s Hs). reflexivity.
Qed.

Lemma Encode_out (E : Event) :
  good_value (ID E) -> good_value (Retry E) -> good_value (Type_ E) ->
  utf8_valid (Data E) = true -> Forall (fun s => trim_cr s = s) (split_nl (Data E)) ->
  Enc.Encode E = (line_bytes (encoded_fields E) ++ [nl], None).
Proof.
  intros HI HR HT HD HDt. unfold Enc.Encode.
  rewrite (opt_write _ (bs "id")), (opt_write _ (bs "retry")),
    (opt_write _ (bs "event")), WriteField_data by (reflexivity || assumption).
  unfold Enc.wseq, Enc.Flush. cbv beta iota.
  unfold encoded_fields. rewrite !line_bytes_app, <- !app_assoc. reflexivity.
Qed.

Lemma good_data_segments (l : bytes) :
  utf8_valid l = true -> Forall (fun s => trim_cr s = s) (split_nl l) ->
  Forall (fun fv => good_name (fst fv) /\ good_value (snd fv))
         (map (fun s => (bs "data", s)) (split_nl l)).
Proof.
  intros Hv Ht. pose proof (utf8_valid_split l Hv) as Hu.
  pose proof (split_nl_no_nl l) as Hn.
  rewrite Forall_forall in *. intros [f v] Hin.
  apply in_map_iff in Hin as (s & Heq & Hs). injection Heq as <- <-.
  split.
  - repeat split; cbn; [discriminate | intuition discriminate | intuition discriminate].
  - repeat split; auto.
Qed.

Lemma good_name_lit (f : bytes) :
  f <> [] -> forallb (fun c => negb (ascii_eqb c colon_c) && negb (ascii_eqb c nl)) f = true ->
  utf8_valid f = true -> trim_cr f = f -> good_name f.
Proof.
  intros H0 Hc Hu Hr. repeat split; try assumption.
  - intro H. rewrite forallb_forall in Hc. specialize (Hc _ H).
    rewrite ascii_eqb_refl in Hc. discriminate Hc.
  - intro H. rewrite forallb_forall in Hc. specialize (Hc _ H).
    rewrite ascii_eqb_refl, andb_false_r in Hc. discriminate Hc.
Qed.

Lemma opt_field_good (b : bool) (f v : bytes) :
  good_name f -> good_value v ->
  Forall (fun fv => good_name (fst fv) /\ good_value (snd fv)) (opt_field b f v).
Proof.
  intros Hf Hv. destruct b; cbn [opt_field];
    [constructor; [split; assumption | constructor] | constructor].
Qed.

Lemma encoded_fields_good (E : Event) :
  good_value (ID E) -> good_value (Retry E) -> good_value (Type_ E) ->
  utf8_valid (Data E) = true -> Forall (fun s => trim_cr s = s) (split_nl (Data E)) ->
  Forall (fun fv => good_name (fst fv) /\ good_value (snd fv)) (encoded_fields E).
Proof.
  intros HI HR HT HD HDt. unfold encoded_fields.
  apply Forall_app; split; [|apply Forall_app; split; [|apply Forall_app; split]];
    try (apply good_data_segments; assumption);
    apply opt_field_good; try assumption;
    apply good_name_lit; first [discriminate | reflexivity].
Qed.

Lemma checkBOM_skip (s : Stream) (c : ascii) (t : bytes) :
  sbytes s = c :: t -> nat_of_ascii c <> 239 ->
  Dec.checkBOM (Dec.mkDecoder s false) = Dec.mkDecoder s true.
Proof.
  intros Hs Hc. unfold Dec.checkBOM. cbn [Dec.r]. rewrite Hs.
  apply Nat.eqb_neq in Hc. rewrite Hc.
  destruct t as [|c2 [|c3 t3]]; reflexivity.
Qed.

Lemma ReadField_skip_BOM (s : Stream) (c : ascii) (t : bytes) :
  sbytes s = c :: t -> nat_of_ascii c <> 239 ->
  Dec.ReadField (Dec.mkDecoder s false) = Dec.ReadField (Dec.mkDecoder s true).
Proof.
  intros Hs Hc. unfold Dec.ReadField at 1. cbn [Dec.checkedBOM].
  rewrite (checkBOM_skip s c t Hs Hc). reflexivity.
Qed.

Lemma encoded_first_byte (E : Event) :
  Type_ E <> [] ->
  exists c t, line_bytes (encoded_fields E) ++ [nl] = c :: t /\ nat_of_ascii c <> 239.
Proof.
  intro HT. unfold encoded_fields.
  destruct (Type_ E) as [|t T]; [contradiction|]. cbn [is_empty negb].
  destruct (ResetID E || negb (is_empty (ID E))), (negb (is_empty (Retry E)));
    cbn [opt_field app line_bytes];
    match goal with |- context [Enc.writeField ?f ?v] =>
      unfold Enc.writeField; destruct (is_empty v) end;
    cbn; eexists _, _; (split; [reflexivity | discriminate]).
Qed.

Lemma decode_loop_skip_BOM (s : Stream) (c : ascii) (t : bytes) (n : nat) w e :
  sbytes s = c :: t -> nat_of_ascii c <> 239 ->
  Dec.decode_loop (S n) (Dec.mkDecoder s false) w e
  = Dec.decode_loop (S n) (Dec.mkDecoder s true) w e.
Proof.
  intros Hs Hc. rewrite !decode_loop_S, (ReadField_skip_BOM s c t Hs Hc). reflexivity.
Qed.

(** * C1: encoding then decoding an event *)

(** C1 (counterexample).  The claim fails on events the encoder does not
    represent faithfully: an empty [Type] comes back as "message", an [ID]
    with a newline comes back as its last line, and a trailing "\r" of a
    data line is lost. *)
Lemma encode_decode_counterexample :
  let E1 := mkEvent [] [] [] (bs "x") false in
  let E2 := mkEvent (bs "t") (bs "a" ++ nl :: bs "b") [] (bs "x") false in
  let E3 := mkEvent (bs "t") [] [] (bs "x" ++ [cr]) false in
  let dec (E : Event) :=
    Dec.Decode (Dec.NewDecoder (mkStream (fst (Enc.Encode E)) EOF)) zero_event in
  snd (Enc.Encode E1) = None /\ snd (fst (dec E1)) = set_Type E1 (bs "message")
  /\ snd (fst (dec E1)) <> E1
  /\ snd (Enc.Encode E2) = None /\ snd (fst (dec E2)) = set_ID E2 (bs "b")
  /\ snd (fst (dec E2)) <> E2
  /\ snd (Enc.Encode E3) = None /\ snd (fst (dec E3)) = set_Data E3 (bs "x")
  /\ snd (fst (dec E3)) <> E3.
Proof.
  vm_compute. repeat split; discriminate.
Qed.

(** C1 (amended).  For an event with non-empty [Data] and [Type], not
    combining [ResetID] with a non-empty [ID], whose [ID], [Retry] and
    [Type] are valid UTF-8 without a newline or a trailing "\r", and whose
    [Data] is valid UTF-8 with no line ending in "\r": [Encode] succeeds
    and decoding its output yields the event itself, without error. *)
Theorem encode_decode_roundtrip (E : Event) :
  Data E <> [] ->
  (ResetID E = true -> ID E = []) ->
  Type_ E <> [] ->
  good_value (ID E) -> good_value (Retry E) -> good_value (Type_ E) ->
  utf8_valid (Data E) = true ->
  Forall (fun s => trim_cr s = s) (split_nl (Data E)) ->
  exists out d,
    Enc.Encode E = (out, None) /\
    Dec.Decode (Dec.NewDecoder (mkStream out EOF)) zero_event = (d, E, None).
Proof.
  intros _ HR HT0 HI HRe HT HD HDt.
  exists (line_bytes (encoded_fields E) ++ [nl]), (Dec.mkDecoder (mkStream [] EOF) true).
  split; [apply Encode_out; assumption|].
  destruct (encoded_first_byte E HT0) as (c & t & Hct & Hc).
  unfold Dec.Decode, Dec.NewDecoder. cbn [Dec.r sbytes].
  rewrite (decode_loop_skip_BOM (mkStream _ EOF) c t) by assumption.
  rewrite decode_lines.
  - rewrite apply_encoded by assumption. reflexivity.
  - apply encoded_fields_good; assumption.
  - pose proof (line_bytes_length (encoded_fields E)).
    rewrite length_app. lia.
Qed.

Lemma encode_decode_roundtrip_witness :
  let E := mkEvent (bs "custom") (bs "42") (bs "10000") (bs "a" ++ nl :: bs "b") false in
  exists out d,
    Enc.Encode E = (out, None) /\
    Dec.Decode (Dec.NewDecoder (mkStream out EOF)) zero_event = (d, E, None).
Proof.
  apply encode_decode_roundtrip; cbn.
  - discriminate.
  - discriminate.
  - discriminate.
  - split; [|split; reflexivity]. cbn. intuition discriminate.
  - split; [|split; reflexivity]. cbn. intuition discriminate.
  - split; [|split; reflexivity]. cbn. intuition discriminate.
  - reflexivity.
  - repeat constructor.
Defined.

(** * The decoder: ReadField and Decode *)

Lemma bytes_eqb_true (a b : bytes) : bytes_eqb a b = true <-> a = b.
Proof.
  revert b. induction a as [|x a IH]; intros [|y b]; cbn [bytes_eqb].
  - split; reflexivity.
  - split; intro H; discriminate H.
  - split; intro H; discriminate H.
  - rewrite andb_true_iff, ascii_eqb_true, IH. split.
    + intros [-> ->]. reflexivity.
    + intro H. injection H as -> ->. split; reflexivity.
Qed.

Lemma break_nl_some_length (l a rest : bytes) :
  break_nl l = (a, Some rest) -> List.length rest < List.length l.
Proof.
  revert a. induction l as [|c t IH]; intros a H; cbn [break_nl] in H; [discriminate H|].
  destruct (ascii_eqb c nl).
  - injection H as _ ->. cbn. lia.
  - destruct (break_nl t) as [a' [r'|]] eqn:E; [|discriminate H].
    injection H as _ ->. specialize (IH a' eq_refl). cbn. lia.
Qed.

Lemma readLine_length (s : Stream) (line : bytes) (s' : Stream) :
  readLine s = inl (line, s') -> List.length (sbytes s') < List.length (sbytes s).
Proof.
  unfold readLine. destruct (sbytes s) as [|c t] eqn:Hs; [discriminate|].
  destruct (break_nl (c :: t)) as [a [rest|]] eqn:Hb; intro H; injection H as _ <-;
    cbn [sbytes].
  - apply (break_nl_some_length _ a). assumption.
  - cbn. lia.
Qed.

Lemma checkBOM_length (d : Dec.Decoder) :
  List.length (sbytes (Dec.r (Dec.checkBOM d))) <= List.length (sbytes (Dec.r d)).
Proof.
  unfold Dec.checkBOM. destruct (sbytes (Dec.r d)) as [|c1 [|c2 [|c3 t3]]] eqn:Hs;
    cbn [Dec.r]; rewrite ?Hs; try lia.
  destruct (_ && _); cbn; rewrite ?Hs; cbn; lia.
Qed.

(** Every call of ReadField that does not fail consumes input. *)
Lemma ReadField_length (d d1 : Dec.Decoder) f v :
  Dec.ReadField d = (d1, f, v, None) ->
  List.length (sbytes (Dec.r d1)) < List.length (sbytes (Dec.r d)).
Proof.
  unfold Dec.ReadField.
  assert (Hb : List.length (sbytes (Dec.r (if Dec.checkedBOM d then d else Dec.checkBOM d)))
               <= List.length (sbytes (Dec.r d)))
    by (destruct (Dec.checkedBOM d); [lia | apply checkBOM_length]).
  destruct (readLine (Dec.r (if Dec.checkedBOM d then d else Dec.checkBOM d)))
    as [[buf rest]|er] eqn:Hl; [|intro H; discriminate H].
  apply readLine_length in Hl.
  destruct buf as [|c t].
  - intro H; injection H as <- _ _. cbn. lia.
  - destruct (cut (c :: t)) as [f0 v0].
    destruct (utf8_valid f0 && _); intro H; [|discriminate H].
    injection H as <- _ _. cbn. lia.
Qed.

(** ** C5 *)

(** C5.  Decoding "event: type\ndata\n\n" succeeds with [Type] "type" and
    empty [Data]; Read drops a decoded event with empty [Data] and decodes
    again; so every event Read delivers (with a nil error) has non-empty
    [Data]. *)
Theorem decode_empty_data_dropped_by_read :
  Dec.Decode (Dec.NewDecoder (mkStream (bs "event: type" ++ nl :: bs "data" ++ [nl; nl]) EOF))
             zero_event
  = (Dec.mkDecoder (mkStream [] EOF) true, mkEvent (bs "type") [] [] [] false, None)
  /\ (forall transport parse n s d1 e,
        ES.err s = None ->
        Dec.Decode (ES.dec s) zero_event = (d1, e, None) -> Data e = [] ->
        ES.read_loop transport parse (S n) s
        = ES.read_loop transport parse n (ES.set_dec s d1))
  /\ (forall transport parse fuel s ev s' log,
        ES.Read transport parse fuel s = Some (ev, None, s', log) -> Data ev <> []).
Proof.
  split; [vm_compute; reflexivity|]. split.
  - intros transport parse n s d1 e Hs Hd He. cbn [ES.read_loop].
    rewrite Hs, Hd, He. reflexivity.
  - intros transport parse fuel s ev s' log.
    assert (Hloop : forall n s0 l0,
               ES.read_loop transport parse n s0 = Some (ev, None, s', l0) -> Data ev <> []).
    { induction n as [|n IH]; intros s0 l0 H; cbn [ES.read_loop] in H.
      - destruct (ES.err s0); discriminate H.
      - destruct (ES.err s0) as [er|]; [discriminate H|].
        destruct (Dec.Decode (ES.dec s0) zero_event) as [[d1 e] [er|]].
        + destruct (errors_is er ErrInvalidEncoding); [eapply IH; exact H|].
          destruct (ES.connect transport parse n (ES.set_dec s0 d1)) as [[s1 l1]|];
            [|discriminate H].
          unfold ES.after in H.
          destruct (ES.read_loop transport parse n s1) as [[[[e2 r2] s2] l2]|] eqn:E;
            [|discriminate H].
          injection H as -> -> -> _. eapply IH. exact E.
        + destruct (Data e) as [|c t] eqn:HD; [eapply IH; exact H|].
          injection H as <- _ _. rewrite HD. discriminate. }
    unfold ES.Read. destruct (ES.r s).
    + apply Hloop.
    + destruct (ES.connect transport parse fuel s) as [[s1 l1]|]; [|discriminate].
      unfold ES.after.
      destruct (ES.read_loop transport parse fuel s1) as [[[[e2 r2] s2] l2]|] eqn:E;
        [|discriminate].
      intro H. injection H as -> -> -> _. eapply Hloop. exact E.
Qed.

Lemma decode_empty_data_dropped_by_read_witness :
  exists ev s' log,
    ES.Read (fun _ _ => stream_response (bs "event: ping" ++ nl :: bs "data" ++ nl :: nl
                                          :: bs "data: x" ++ [nl; nl]))
            plain_media_type 5 (ES.NewConfig 0) = Some (ev, None, s', log)
    /\ Data ev <> [].
Proof.
  exists (mkEvent (bs "message") [] [] (bs "x") false),
         (ES.mkES 1000000000 None (Some 0) (Dec.mkDecoder (mkStream [] EOF) true)
                  [] (Some []) 1),
         [EDo 0 (Some [])].
  assert (H : ES.Read (fun _ _ => stream_response (bs "event: ping" ++ nl :: bs "data" ++ nl :: nl
                                          :: bs "data: x" ++ [nl; nl]))
            plain_media_type 5 (ES.NewConfig 0)
            = Some (mkEvent (bs "message") [] [] (bs "x") false, None,
                    ES.mkES 1000000000 None (Some 0) (Dec.mkDecoder (mkStream [] EOF) true)
                            [] (Some []) 1, [EDo 0 (Some [])]))
    by (vm_compute; reflexivity).
  split; [exact H|].
  exact (proj2 (proj2 decode_empty_data_dropped_by_read) _ _ _ _ _ _ _ H).
Defined.

(** ** C8 *)

(** C8 (counterexample).  The line ":" is not empty, yet ReadField returns
    an empty field, an empty value and no error for it; so Decode ends the
    event there ("data: a", ":", "data: b" decodes to the data "a"). *)
Lemma readField_boundary_counterexample :
  readLine (mkStream [colon_c; nl] EOF) = inl ([colon_c], mkStream [] EOF) /\
  Dec.ReadField (Dec.NewDecoder (mkStream [colon_c; nl] EOF))
    = (Dec.mkDecoder (mkStream [] EOF) true, [], [], None) /\
  Dec.ReadField (Dec.NewDecoder (mkStream [colon_c; space_c; nl] EOF))
    = (Dec.mkDecoder (mkStream [] EOF) true, [], [], None) /\
  Data (snd (fst (Dec.Decode (Dec.NewDecoder
          (mkStream (bs "data: a" ++ nl :: colon_c :: nl :: bs "data: b" ++ [nl; nl]) EOF))
          zero_event))) = bs "a".
Proof. repeat split; vm_compute; reflexivity. Qed.

(** C8 (amended).  ReadField returns an empty field name, an empty value
    and no error exactly when the logical line it reads (after the
    byte-order-mark check) is empty, ":" or ": ". *)
Theorem readField_boundary_iff (d : Dec.Decoder) :
  (exists d', Dec.ReadField d = (d', [], [], None)) <->
  (exists line s',
     readLine (Dec.r (if Dec.checkedBOM d then d else Dec.checkBOM d)) = inl (line, s')
     /\ (line = [] \/ line = [colon_c] \/ line = [colon_c; space_c])).
Proof.
  unfold Dec.ReadField. cbv zeta.
  destruct (readLine (Dec.r (if Dec.checkedBOM d then d else Dec.checkBOM d)))
    as [[buf rest]|er].
  - split.
    + intros [d' H]. exists buf, rest. split; [reflexivity|].
      destruct buf as [|c t]; [left; reflexivity|]. right.
      cbn [cut] in H. destruct (ascii_eqb c colon_c) eqn:Ec.
      * apply ascii_eqb_true in Ec. subst c.
        destruct t as [|x t]; [left; reflexivity|]. right.
        destruct (ascii_eqb x space_c) eqn:Ex.
        -- apply ascii_eqb_true in Ex. subst x.
           destruct (utf8_valid [] && utf8_valid t); [|discriminate H].
           injection H as _ ->. reflexivity.
        -- destruct (utf8_valid [] && utf8_valid (x :: t)); discriminate H.
      * destruct (cut t) as [a b].
        destruct (match b with
                  | [] => b
                  | c0 :: v' => if ascii_eqb c0 space_c then v' else b
                  end); destruct (utf8_valid (c :: a) && _); discriminate H.
    + intros (line & s' & Hl & Hline). injection Hl as <- <-.
      destruct Hline as [ -> | [ -> | -> ] ]; eexists; reflexivity.
  - split.
    + intros [d' H]. discriminate H.
    + intros (line & s' & H & _). discriminate H.
Qed.

(** ** C9 *)

(** C9 (counterexample).  Decode does not return ReadField's error value
    itself but wraps it with "read field: %w". *)
Lemma decode_error_counterexample :
  let d := Dec.NewDecoder (mkStream [ascii_of_nat 255; nl] EOF) in
  snd (Dec.ReadField d) = Some ErrInvalidEncoding /\
  snd (Dec.Decode d zero_event) = Some (Wrap "read field" ErrInvalidEncoding) /\
  Wrap "read field" ErrInvalidEncoding <> ErrInvalidEncoding /\
  snd (Dec.Decode (Dec.NewDecoder (mkStream [] EOF)) zero_event)
    = Some (Wrap "read field" EOF).
Proof. vm_compute. repeat split; try reflexivity; discriminate. Qed.

Lemma wrap_neq (m : string) (x : error) : Wrap m x <> x.
Proof.
  induction x; try discriminate.
  intro H. injection H as H1 H2. apply IHx. rewrite H1 at 1. rewrite H2. reflexivity.
Qed.

Lemma errors_is_wrap (m : string) (x target : error) :
  (forall m' x', target <> Wrap m' x') -> errors_is (Wrap m x) target = errors_is x target.
Proof.
  intro H. cbn [errors_is]. destruct (error_eq_dec (Wrap m x) target) as [E|E].
  - exfalso. exact (H m x (eq_sym E)).
  - reflexivity.
Qed.

Lemma errors_is_refl (x : error) : errors_is x x = true.
Proof. destruct x; cbn [errors_is]; destruct (error_eq_dec _ _); congruence. Qed.

Lemma decode_loop_reaches_error (d dk : Dec.Decoder) :
  rf_steps d dk -> forall d1 f v err, Dec.ReadField dk = (d1, f, v, Some err) ->
  forall n w e, List.length (sbytes (Dec.r d)) < n ->
  exists e', Dec.decode_loop n d w e = (d1, e', Some (Wrap "read field" err)).
Proof.
  induction 1 as [d|d d1' d2 f' v' Hrf Hb Hs IH]; intros d1 f v err Hk n w e Hn;
    (destruct n as [|n]; [lia|]); rewrite decode_loop_S.
  - rewrite Hk. eexists. reflexivity.
  - rewrite Hrf, Hb. destruct (Dec.apply_field f' v' w e) as [e1 w1].
    apply (IH d1 f v err Hk). apply ReadField_length in Hrf. lia.
Qed.

Lemma decode_loop_error_source n d w e d' e' er' :
  Dec.decode_loop n d w e = (d', e', Some er') ->
  exists dk f v err, rf_steps d dk /\ Dec.ReadField dk = (d', f, v, Some err)
                     /\ er' = Wrap "read field" err.
Proof.
  revert d w e. induction n as [|n IH]; intros d w e H; [discriminate H|].
  rewrite decode_loop_S in H.
  destruct (Dec.ReadField d) as [[[d1 f] v] [err|]] eqn:E.
  - injection H as -> _ <-. exists d, f, v, err. repeat split; [constructor | assumption].
  - destruct (is_empty f && is_empty v) eqn:Hb; [discriminate H|].
    destruct (Dec.apply_field f v w e) as [e1 w1].
    destruct (IH _ _ _ H) as (dk & f' & v' & err & Hs & Hk & ->).
    exists dk, f', v', err. repeat split; [econstructor; eassumption | assumption].
Qed.

(** C9 (amended).  When a call of ReadField made by Decode fails, Decode
    stops and returns that error wrapped as "read field: %w"; every error
    of Decode arises so.  The wrapped error still matches the original
    under errors.Is (against any target that is not itself a wrapper),
    ErrInvalidEncoding and io.EOF included. *)
Theorem decode_wraps_readfield_error (d : Dec.Decoder) (e : Event) :
  (forall dk d1 f v err, rf_steps d dk -> Dec.ReadField dk = (d1, f, v, Some err) ->
     exists e', Dec.Decode d e = (d1, e', Some (Wrap "read field" err))) /\
  (forall d' e' er', Dec.Decode d e = (d', e', Some er') ->
     exists dk f v err,
       rf_steps d dk /\ Dec.ReadField dk = (d', f, v, Some err) /\
       er' = Wrap "read field" err /\ errors_is er' err = true /\
       (forall target, (forall m x, target <> Wrap m x) ->
          errors_is er' target = errors_is err target)).
Proof.
  split.
  - intros dk d1 f v err Hs Hk. unfold Dec.Decode.
    apply (decode_loop_reaches_error d dk Hs d1 f v err Hk). lia.
  - intros d' e' er' H. unfold Dec.Decode in H.
    destruct (decode_loop_error_source _ _ _ _ _ _ _ H) as (dk & f & v & err & Hs & Hk & ->).
    exists dk, f, v, err. repeat split; try assumption.
    + cbn [errors_is]. destruct (error_eq_dec (Wrap "read field" err) err) as [E|E].
      * reflexivity.
      * apply errors_is_refl.
    + intros target Ht. apply errors_is_wrap. assumption.
Qed.

Lemma decode_wraps_readfield_error_witness :
  exists e',
    Dec.Decode (Dec.NewDecoder (mkStream [ascii_of_nat 255; nl] EOF)) zero_event
    = (Dec.mkDecoder (mkStream [] EOF) true, e', Some (Wrap "read field" ErrInvalidEncoding)).
Proof.
  apply (proj1 (decode_wraps_readfield_error
                  (Dec.NewDecoder (mkStream [ascii_of_nat 255; nl] EOF)) zero_event)
           (Dec.NewDecoder (mkStream [ascii_of_nat 255; nl] EOF)) _ [] [] _).
  - constructor.
  - vm_compute. reflexivity.
Defined.

(** ** C10 *)

Lemma apply_field_wrote (f v : bytes) (w : bool) (e1 e2 : Event) :
  snd (Dec.apply_field f v w e1) = snd (Dec.apply_field f v w e2).
Proof.
  unfold Dec.apply_field.
  destruct (bytes_eqb f (bs "id")); [reflexivity|].
  destruct (bytes_eqb f (bs "retry")); [reflexivity|].
  destruct (bytes_eqb f (bs "event")); [reflexivity|].
  destruct (bytes_eqb f (bs "data")); reflexivity.
Qed.

Lemma apply_field_data (f v : bytes) (w : bool) :
  exists s, forall e, Data (fst (Dec.apply_field f v w e)) = Data e ++ s.
Proof.
  unfold Dec.apply_field.
  destruct (bytes_eqb f (bs "id")).
  { exists []. intro e. rewrite app_nil_r.
    destruct (is_empty (ID (set_ID e v))); reflexivity. }
  destruct (bytes_eqb f (bs "retry")); [exists []; intro e; rewrite app_nil_r; reflexivity|].
  destruct (bytes_eqb f (bs "event")); [exists []; intro e; rewrite app_nil_r; reflexivity|].
  destruct (bytes_eqb f (bs "data")); [|exists []; intro e; rewrite app_nil_r; reflexivity].
  destruct w.
  - exists (nl :: v). intro e. cbn [fst Data set_Data]. rewrite <- app_assoc. reflexivity.
  - exists v. intro e. reflexivity.
Qed.

Lemma apply_field_resetid (f v : bytes) (w : bool) (e : Event) :
  ResetID e = true -> ResetID (fst (Dec.apply_field f v w e)) = true.
Proof.
  intro H. unfold Dec.apply_field.
  destruct (bytes_eqb f (bs "id")).
  { destruct (is_empty (ID (set_ID e v))); [reflexivity | exact H]. }
  destruct (bytes_eqb f (bs "retry")); [exact H|].
  destruct (bytes_eqb f (bs "event")); [exact H|].
  destruct (bytes_eqb f (bs "data")); [|exact H].
  destruct w; exact H.
Qed.

Lemma apply_field_not_id (f v : bytes) (w : bool) (e : Event) :
  f <> bs "id" ->
  ID (fst (Dec.apply_field f v w e)) = ID e /\
  ResetID (fst (Dec.apply_field f v w e)) = ResetID e.
Proof.
  intro Hf. unfold Dec.apply_field.
  destruct (bytes_eqb f (bs "id")) eqn:E.
  { exfalso. apply Hf, bytes_eqb_true, E. }
  destruct (bytes_eqb f (bs "retry")); [split; reflexivity|].
  destruct (bytes_eqb f (bs "event")); [split; reflexivity|].
  destruct (bytes_eqb f (bs "data")); [|split; reflexivity].
  destruct w; split; reflexivity.
Qed.

Lemma apply_field_not_retry (f v : bytes) (w : bool) (e : Event) :
  f <> bs "retry" -> Retry (fst (Dec.apply_field f v w e)) = Retry e.
Proof.
  intro Hf. unfold Dec.apply_field.
  destruct (bytes_eqb f (bs "id")).
  { destruct (is_empty (ID (set_ID e v))); reflexivity. }
  destruct (bytes_eqb f (bs "retry")) eqn:E.
  { exfalso. apply Hf, bytes_eqb_true, E. }
  destruct (bytes_eqb f (bs "event")); [reflexivity|].
  destruct (bytes_eqb f (bs "data")); [|reflexivity].
  destruct w; reflexivity.
Qed.

(** The control flow of the field loop does not depend on the event, and
    the data it appends does not either. *)
Lemma decode_loop_data (n : nat) (d : Dec.Decoder) (w : bool) (e1 e2 : Event) :
  fst (fst (Dec.decode_loop n d w e1)) = fst (fst (Dec.decode_loop n d w e2)) /\
  snd (Dec.decode_loop n d w e1) = snd (Dec.decode_loop n d w e2) /\
  exists s, Data (snd (fst (Dec.decode_loop n d w e1))) = Data e1 ++ s /\
            Data (snd (fst (Dec.decode_loop n d w e2))) = Data e2 ++ s.
Proof.
  revert d w e1 e2. induction n as [|n IH]; intros d w e1 e2.
  - split; [reflexivity|]. split; [reflexivity|].
    exists []. rewrite !app_nil_r. split; reflexivity.
  - rewrite !decode_loop_S.
    destruct (Dec.ReadField d) as [[[d1 f] v] [err|]].
    + split; [reflexivity|]. split; [reflexivity|].
      exists []. rewrite !app_nil_r. split; reflexivity.
    + destruct (is_empty f && is_empty v).
      * split; [reflexivity|]. split; [reflexivity|].
        exists []. rewrite !app_nil_r. split; reflexivity.
      * pose proof (apply_field_wrote f v w e1 e2) as Hw.
        destruct (apply_field_data f v w) as [s0 Hs0].
        pose proof (Hs0 e1) as H1. pose proof (Hs0 e2) as H2.
        destruct (Dec.apply_field f v w e1) as [a1 b1].
        destruct (Dec.apply_field f v w e2) as [a2 b2].
        cbn [fst snd] in Hw, H1, H2. subst b2.
        destruct (IH d1 b1 a1 a2) as (Hd & Hr & s & Hs1 & Hs2).
        split; [exact Hd|]. split; [exact Hr|].
        exists (s0 ++ s). rewrite Hs1, Hs2, H1, H2, <- !app_assoc. split; reflexivity.
Qed.

(** A property of the event that every field read on the way keeps. *)
Lemma decode_loop_invariant (P : Event -> Prop) (Q : bytes -> Prop) :
  (forall f v w e, Q f -> P e -> P (fst (Dec.apply_field f v w e))) ->
  forall n d w e,
  (forall dk d1 f v, rf_steps d dk -> Dec.ReadField dk = (d1, f, v, None) ->
                     is_empty f && is_empty v = false -> Q f) ->
  P e -> P (snd (fst (Dec.decode_loop n d w e))).
Proof.
  intros Hstep n. induction n as [|n IH]; intros d w e HQ HP; [exact HP|].
  rewrite decode_loop_S.
  destruct (Dec.ReadField d) as [[[d1 f] v] [err|]] eqn:E; [exact HP|].
  destruct (is_empty f && is_empty v) eqn:Hb; [exact HP|].
  pose proof (Hstep f v w e (HQ d d1 f v (rf_refl d) E Hb) HP) as HP1.
  destruct (Dec.apply_field f v w e) as [e1 w1].
  apply IH; [|exact HP1].
  intros dk d2 f' v' Hs. apply HQ. econstructor; eassumption.
Qed.

Lemma rf_steps_inv (d dk : Dec.Decoder) :
  rf_steps d dk ->
  dk = d \/ exists d1 f v, Dec.ReadField d = (d1, f, v, None) /\
                           is_empty f && is_empty v = false /\ rf_steps d1 dk.
Proof.
  intro H. destruct H as [d|d d1 d2 f v Hk Hb Hs]; [left; reflexivity|].
  right. exists d1, f, v. repeat split; assumption.
Qed.

Lemma no_field_Q (d : Dec.Decoder) (name : bytes) :
  (forall dk d1 v r, rf_steps d dk -> Dec.ReadField dk <> (d1, name, v, r)) ->
  forall dk d1 f v, rf_steps d dk -> Dec.ReadField dk = (d1, f, v, None) ->
                    is_empty f && is_empty v = false -> f <> name.
Proof. intros H dk d1 f v Hs Hk _ ->. exact (H dk d1 v None Hs Hk). Qed.

(** C10.  Decode sets Type to "message" before reading any field and
    otherwise only applies the fields it reads: the data it reads is
    appended to the Data already in the event, ResetID is never cleared,
    ID and ResetID stay as they were when no "id" field is read, Retry
    stays when no "retry" field is read, and when the first ReadField
    signals a boundary or fails the event differs from the one passed
    only by its Type "message". *)
Theorem decode_reused_event (d : Dec.Decoder) (e : Event) d' e' res :
  Dec.Decode d e = (d', e', res) ->
  Data e' = Data e ++ Data (snd (fst (Dec.Decode d zero_event))) /\
  (ResetID e = true -> ResetID e' = true) /\
  ((forall dk d1 v r, rf_steps d dk -> Dec.ReadField dk <> (d1, bs "id", v, r)) ->
     ID e' = ID e /\ ResetID e' = ResetID e) /\
  ((forall dk d1 v r, rf_steps d dk -> Dec.ReadField dk <> (d1, bs "retry", v, r)) ->
     Retry e' = Retry e) /\
  ((forall d1 f v, Dec.ReadField d = (d1, f, v, None) -> f = [] /\ v = []) ->
     e' = set_Type e (bs "message")).
Proof.
  intro H. unfold Dec.Decode in *.
  assert (He' : e' = snd (fst (Dec.decode_loop (S (List.length (sbytes (Dec.r d)))) d false
                                 (set_Type e (bs "message")))))
    by (rewrite H; reflexivity).
  split; [|split; [|split; [|split]]].
  - destruct (decode_loop_data (S (List.length (sbytes (Dec.r d)))) d false
                (set_Type e (bs "message")) (set_Type zero_event (bs "message")))
      as (_ & _ & s & Hs1 & Hs2).
    rewrite He', Hs1, Hs2. reflexivity.
  - intro Hr. rewrite He'.
    apply (decode_loop_invariant (fun x => ResetID x = true) (fun _ => True)).
    + intros f v w x _ Hx. apply apply_field_resetid, Hx.
    + intros. exact I.
    + exact Hr.
  - intro Hn. rewrite He'.
    apply (decode_loop_invariant (fun x => ID x = ID e /\ ResetID x = ResetID e)
                                 (fun f => f <> bs "id")).
    + intros f v w x Hf [Hx1 Hx2]. rewrite <- Hx1, <- Hx2. apply apply_field_not_id, Hf.
    + apply no_field_Q, Hn.
    + split; reflexivity.
  - intro Hn. rewrite He'.
    apply (decode_loop_invariant (fun x => Retry x = Retry e) (fun f => f <> bs "retry")).
    + intros f v w x Hf Hx. rewrite <- Hx. apply apply_field_not_retry, Hf.
    + apply no_field_Q, Hn.
    + reflexivity.
  - intro Hb. rewrite He', decode_loop_S.
    destruct (Dec.ReadField d) as [[[d1 f] v] [err|]] eqn:E; [reflexivity|].
    destruct (Hb d1 f v eq_refl) as [-> ->]. reflexivity.
Qed.

Lemma decode_reused_event_witness :
  exists d' e' res,
    Dec.Decode (Dec.NewDecoder (mkStream (bs "data: y" ++ [nl; nl]) EOF))
               (mkEvent (bs "t") (bs "k") (bs "5") (bs "x") false) = (d', e', res) /\
    Data e' = bs "x" ++ Data (snd (fst (Dec.Decode (Dec.NewDecoder
                               (mkStream (bs "data: y" ++ [nl; nl]) EOF)) zero_event))) /\
    ID e' = bs "k".
Proof.
  exists (Dec.mkDecoder (mkStream [] EOF) true),
         (mkEvent (bs "message") (bs "k") (bs "5") (bs "xy") false), None.
  assert (H : Dec.Decode (Dec.NewDecoder (mkStream (bs "data: y" ++ [nl; nl]) EOF))
               (mkEvent (bs "t") (bs "k") (bs "5") (bs "x") false)
              = (Dec.mkDecoder (mkStream [] EOF) true,
                 mkEvent (bs "message") (bs "k") (bs "5") (bs "xy") false, None))
    by (vm_compute; reflexivity).
  pose proof (decode_reused_event _ _ _ _ _ H) as (Hd & _ & Hid & _ & _).
  split; [exact H|]. split; [exact Hd|].
  refine (proj1 (Hid _)).
  assert (E0 : Dec.ReadField (Dec.NewDecoder (mkStream (bs "data: y" ++ [nl; nl]) EOF))
               = (Dec.mkDecoder (mkStream [nl] EOF) true, bs "data", bs "y", None))
    by (vm_compute; reflexivity).
  assert (E1 : Dec.ReadField (Dec.mkDecoder (mkStream [nl] EOF) true)
               = (Dec.mkDecoder (mkStream [] EOF) true, [], [], None))
    by (vm_compute; reflexivity).
  intros dk d1 v r Hs Hk.
  destruct (rf_steps_inv _ _ Hs) as [->|(d2 & f' & v' & Hk1 & Hb & Hs')].
  { rewrite E0 in Hk. injection Hk as _ Hf _ _. discriminate Hf. }
  rewrite E0 in Hk1. injection Hk1 as <- <- <-.
  destruct (rf_steps_inv _ _ Hs') as [->|(d3 & f'' & v'' & Hk2 & Hb' & _)].
  { rewrite E1 in Hk. injection Hk as _ Hf _ _. discriminate Hf. }
  rewrite E1 in Hk2. injection Hk2 as <- <- <-. discriminate Hb'.
Defined.

(** ** The client: connect *)

Section ClientLemmas.

Variable transport : nat -> bytes -> outcome.
Variable parse : bytes -> bytes.

Lemma connect_step_unfold (s : ES.EventSource) :
  ES.connect_step transport parse s =
  let pre := match ES.r s with
             | Some k => [ECloseBody k; ESleep (ES.retry s)]
             | None => []
             end in
  let k := ES.attempts s in
  let log := pre ++ [EDo k (Some (ES.lastEventID s))] in
  let s0 := ES.set_attempts (ES.set_hdr s (ES.lastEventID s)) (S k) in
  match transport k (ES.lastEventID s) with
  | DoErr e =>
      if errors_is e Canceled then (ES.set_err s0 (Some e), log, false)
      else (s0, log, false)
  | DoResp resp =>
      if (500 <=? StatusCode resp)%Z then (s0, log ++ [ECloseBody k], false)
      else if (StatusCode resp =? 204)%Z then
        (ES.set_err s0 (Some ErrClosed), log ++ [ECloseBody k], false)
      else if (StatusCode resp =? 200)%Z then
        if bytes_eqb (parse (ContentType resp)) (bs "text/event-stream")
        then (ES.set_body s0 k (Dec.NewDecoder (Body resp)), log, true)
        else (ES.set_err s0 (Some (Errorf "invalid response Content-Type (%s)"
                                          (ContentType resp))),
              log ++ [ECloseBody k], false)
      else (ES.set_err s0 (Some (Errorf "endpoint returned unrecoverable status %s"
                                        (Status resp))), log, false)
  end.
Proof. reflexivity. Qed.

Lemma in_log_close (pre : list effect) (x y : effect) : In y ((pre ++ [x]) ++ [y]).
Proof. apply in_or_app. right. left. reflexivity. Qed.

Lemma connect_terminal (fuel : nat) (s : ES.EventSource) (e : error) :
  ES.err s = Some e -> ES.connect transport parse fuel s = Some (s, []).
Proof. intro H. destruct fuel; cbn [ES.connect]; rewrite H; reflexivity. Qed.

Lemma connect_exit (fuel : nat) (s s' : ES.EventSource) (l : list effect) :
  ES.connect transport parse fuel s = Some (s', l) ->
  ES.err s' <> None \/
  exists s0 l0, ES.err s0 = None /\ ES.connect_step transport parse s0 = (s', l0, true).
Proof.
  revert s l. induction fuel as [|n IH]; intros s l H; cbn [ES.connect] in H;
    destruct (ES.err s) as [e|] eqn:E.
  - injection H as <- _. left. rewrite E. discriminate.
  - discriminate H.
  - injection H as <- _. left. rewrite E. discriminate.
  - destruct (ES.connect_step transport parse s) as [[s1 l1] [|]] eqn:Ec.
    + injection H as <- _. right. exists s, l1. split; assumption.
    + destruct (ES.connect transport parse n s1) as [[s2 l2]|] eqn:En; [|discriminate H].
      injection H as <- _. exact (IH _ _ En).
Qed.

End ClientLemmas.

(** ** C2 *)

(** C2.  One pass of connect's loop, from a client with no recorded error,
    classifies the outcome of its client.Do call: a transport error that is
    context.Canceled (under errors.Is) is recorded as the terminal error; any
    other transport error leaves no error recorded and the loop goes on; a
    status >= 500 closes the body, records nothing and goes on; 204 closes
    the body and records ErrClosed; 200 with media type text/event-stream
    binds a fresh Decoder to the body and returns; 200 with another media
    type and any other status record a terminal error.  The loop returns
    only after such a successful pass or once an error is recorded, and
    with an error recorded it makes no further attempt. *)
Theorem connect_classification (transport : nat -> bytes -> outcome)
    (parse : bytes -> bytes) :
  (forall s s1 log done,
     ES.err s = None ->
     ES.connect_step transport parse s = (s1, log, done) ->
     let k := ES.attempts s in
     let out := transport k (ES.lastEventID s) in
     (forall e, out = DoErr e -> errors_is e Canceled = true ->
        ES.err s1 = Some e /\ done = false) /\
     (forall e, out = DoErr e -> errors_is e Canceled = false ->
        ES.err s1 = None /\ done = false) /\
     (forall resp, out = DoResp resp -> (500 <= StatusCode resp)%Z ->
        ES.err s1 = None /\ done = false /\ In (ECloseBody k) log) /\
     (forall resp, out = DoResp resp -> StatusCode resp = 204%Z ->
        ES.err s1 = Some ErrClosed /\ done = false /\ In (ECloseBody k) log) /\
     (forall resp, out = DoResp resp -> StatusCode resp = 200%Z ->
        parse (ContentType resp) = bs "text/event-stream" ->
        done = true /\ ES.err s1 = None /\ ES.r s1 = Some k /\
        ES.dec s1 = Dec.NewDecoder (Body resp)) /\
     (forall resp, out = DoResp resp -> StatusCode resp = 200%Z ->
        parse (ContentType resp) <> bs "text/event-stream" ->
        ES.err s1 <> None /\ done = false) /\
     (forall resp, out = DoResp resp -> (StatusCode resp < 500)%Z ->
        StatusCode resp <> 204%Z -> StatusCode resp <> 200%Z ->
        ES.err s1 <> None /\ done = false)) /\
  (forall fuel s s' l,
     ES.connect transport parse fuel s = Some (s', l) ->
     ES.err s' <> None \/
     exists s0 l0, ES.err s0 = None /\ ES.connect_step transport parse s0 = (s', l0, true)) /\
  (forall fuel s e, ES.err s = Some e -> ES.connect transport parse fuel s = Some (s, [])).
Proof.
  split; [|split; [apply connect_exit | apply connect_terminal]].
  intros s s1 log done Hs H k out.
  rewrite connect_step_unfold in H. cbv zeta in H. fold k in H. fold out in H.
  split; [|split; [|split; [|split; [|split; [|split]]]]].
  - intros e He Hc. rewrite He, Hc in H. injection H as <- <- <-. split; reflexivity.
  - intros e He Hc. rewrite He, Hc in H. injection H as <- <- <-. split; [exact Hs | reflexivity].
  - intros resp He Hc. rewrite He, (proj2 (Z.leb_le _ _) Hc) in H.
    injection H as <- <- <-. split; [exact Hs|]. split; [reflexivity|]. apply in_log_close.
  - intros resp He Hc. rewrite He, Hc in H. cbn [Z.leb Z.eqb Z.compare Pos.compare
      Pos.compare_cont Pos.eqb] in H.
    injection H as <- <- <-. split; [reflexivity|]. split; [reflexivity|]. apply in_log_close.
  - intros resp He Hc Hp. rewrite He, Hc, Hp, (proj2 (bytes_eqb_true _ _) eq_refl) in H.
    cbn [Z.leb Z.eqb Z.compare Pos.compare Pos.compare_cont Pos.eqb] in H.
    injection H as <- <- <-. repeat split. exact Hs.
  - intros resp He Hc Hp. rewrite He, Hc in H.
    destruct (bytes_eqb (parse (ContentType resp)) (bs "text/event-stream")) eqn:Eb.
    { exfalso. apply Hp, bytes_eqb_true, Eb. }
    cbn [Z.leb Z.eqb Z.compare Pos.compare Pos.compare_cont Pos.eqb] in H.
    injection H as <- <- <-. split; [discriminate | reflexivity].
  - intros resp He H5 H204 H200. rewrite He in H.
    rewrite (proj2 (Z.leb_gt _ _) H5), (proj2 (Z.eqb_neq _ _) H204),
            (proj2 (Z.eqb_neq _ _) H200) in H.
    injection H as <- <- <-. split; [discriminate | reflexivity].
Qed.

Lemma connect_classification_witness :
  ES.connect (flaky_transport (bs "data: x" ++ [nl; nl])) plain_media_type 5 (ES.NewConfig 0)
  = Some (ES.mkES 1000000000 None (Some 1)
            (Dec.NewDecoder (mkStream (bs "data: x" ++ [nl; nl]) EOF)) [] (Some []) 2,
          [EDo 0 (Some []); ECloseBody 0; EDo 1 (Some [])]) /\
  (forall s1 log done,
     ES.connect_step (flaky_transport (bs "data: x" ++ [nl; nl])) plain_media_type
                     (ES.NewConfig 0) = (s1, log, done) ->
     ES.err s1 = None /\ done = false /\ In (ECloseBody 0) log).
Proof.
  split; [vm_compute; reflexivity|].
  intros s1 log done H.
  exact (proj1 (proj2 (proj2 (proj1 (connect_classification _ _) (ES.NewConfig 0) _ _ _ eq_refl H)))
           _ eq_refl (Z.le_refl _)).
Defined.

(** ** The client: Read *)

Section ReadLemmas.

Variable transport : nat -> bytes -> outcome.
Variable parse : bytes -> bytes.

Lemma Read_terminal (fuel : nat) (s : ES.EventSource) (E : error) :
  ES.err s = Some E -> ES.Read transport parse fuel s = Some (zero_event, Some E, s, []).
Proof.
  intro H. unfold ES.Read. destruct (ES.r s).
  - destruct fuel; cbn [ES.read_loop]; rewrite H; reflexivity.
  - rewrite (connect_terminal transport parse fuel s E H).
    destruct fuel; cbn [ES.read_loop]; rewrite H; reflexivity.
Qed.

Ltac in_edo Hin :=
  cbn [In app] in Hin;
  repeat match type of Hin with
         | _ \/ _ => destruct Hin as [Hin|Hin]
         end;
  first [ discriminate Hin | contradiction Hin | injection Hin as _ <-; reflexivity ].

Lemma connect_step_frame (s s1 : ES.EventSource) (l : list effect) (done : bool) :
  ES.connect_step transport parse s = (s1, l, done) ->
  ES.lastEventID s1 = ES.lastEventID s /\ ES.retry s1 = ES.retry s /\
  (forall k h, In (EDo k h) l -> h = Some (ES.lastEventID s)).
Proof.
  intro H. rewrite connect_step_unfold in H. cbv zeta in H.
  destruct (ES.r s) as [k0|];
  (destruct (transport (ES.attempts s) (ES.lastEventID s)) as [e|resp];
   [ destruct (errors_is e Canceled)
   | destruct (500 <=? StatusCode resp)%Z;
     [| destruct (StatusCode resp =? 204)%Z;
        [| destruct (StatusCode resp =? 200)%Z;
           [ destruct (bytes_eqb (parse (ContentType resp)) (bs "text/event-stream")) |]]]]);
  injection H as <- <- <-; (split; [reflexivity | split; [reflexivity|]]);
  intros k h Hin; in_edo Hin.
Qed.

Lemma connect_frame (fuel : nat) (s s' : ES.EventSource) (l : list effect) :
  ES.connect transport parse fuel s = Some (s', l) ->
  ES.lastEventID s' = ES.lastEventID s /\ ES.retry s' = ES.retry s /\
  (forall k h, In (EDo k h) l -> h = Some (ES.lastEventID s)).
Proof.
  revert s l. induction fuel as [|n IH]; intros s l H; cbn [ES.connect] in H;
    destruct (ES.err s) as [e|].
  - injection H as <- <-. split; [reflexivity | split; [reflexivity|]]. intros k h [].
  - discriminate H.
  - injection H as <- <-. split; [reflexivity | split; [reflexivity|]]. intros k h [].
  - destruct (ES.connect_step transport parse s) as [[s1 l1] [|]] eqn:Ec.
    + injection H as <- <-. exact (connect_step_frame _ _ _ _ Ec).
    + destruct (connect_step_frame _ _ _ _ Ec) as (Hl1 & Hr1 & Hd1).
      destruct (ES.connect transport parse n s1) as [[s2 l2]|] eqn:En; [|discriminate H].
      injection H as <- <-. destruct (IH _ _ En) as (Hl2 & Hr2 & Hd2).
      split; [congruence | split; [congruence|]].
      intros k h Hin. apply in_app_or in Hin. destruct Hin as [Hin|Hin].
      * exact (Hd1 k h Hin).
      * rewrite (Hd2 k h Hin). congruence.
Qed.

(** What one call of Read's loop does to lastEventID and retry, and the
    Last-Event-Id header of the requests it makes. *)
Lemma read_loop_frame (n : nat) (s s' : ES.EventSource) ev res log :
  ES.read_loop transport parse n s = Some (ev, res, s', log) ->
  (res = None ->
     ES.lastEventID s' = (if negb (is_empty (ID ev)) || ResetID ev
                          then ID ev else ES.lastEventID s) /\
     ES.retry s' = (if negb (is_empty (Retry ev))
                    then match Atoi (Retry ev) with
                         | Some v => wrap64 (v * Millisecond)
                         | None => ES.retry s
                         end
                    else ES.retry s)) /\
  (res <> None -> ES.lastEventID s' = ES.lastEventID s /\ ES.retry s' = ES.retry s) /\
  (forall k h, In (EDo k h) log -> h = Some (ES.lastEventID s)).
Proof.
  revert s log. induction n as [|n IH]; intros s log H; cbn [ES.read_loop] in H;
    destruct (ES.err s) as [e|].
  - injection H as <- <- <- <-. split; [discriminate|].
    split; [split; reflexivity|]. intros k h [].
  - discriminate H.
  - injection H as <- <- <- <-. split; [discriminate|].
    split; [split; reflexivity|]. intros k h [].
  - destruct (Dec.Decode (ES.dec s) zero_event) as [[d1 e] [er|]].
    + destruct (errors_is er ErrInvalidEncoding).
      * exact (IH _ _ H).
      * destruct (ES.connect transport parse n (ES.set_dec s d1)) as [[s1 l1]|] eqn:Ec;
          [|discriminate H].
        destruct (connect_frame _ _ _ _ Ec) as (Hl1 & Hr1 & Hd1).
        unfold ES.after in H.
        destruct (ES.read_loop transport parse n s1) as [[[[ev' res'] s''] l']|] eqn:Er;
          [|discriminate H].
        injection H as <- <- <- <-.
        destruct (IH _ _ Er) as (Hn & Hs & Hd).
        cbn [ES.lastEventID ES.retry ES.set_dec] in Hl1, Hr1, Hd1.
        rewrite Hl1, Hr1 in Hn, Hs. rewrite Hl1 in Hd.
        split; [exact Hn|]. split; [exact Hs|].
        intros k h Hin. apply in_app_or in Hin. destruct Hin as [Hin|Hin].
        -- exact (Hd1 k h Hin).
        -- exact (Hd k h Hin).
    + destruct (is_empty (Data e)).
      * exact (IH _ _ H).
      * injection H as <- <- <- <-. split; [|split; [intro C; contradiction C; reflexivity|]].
        -- intros _.
           destruct (negb (is_empty (ID e)) || ResetID e);
             destruct (negb (is_empty (Retry e))); try (split; reflexivity);
             destruct (Atoi (Retry e)); split; reflexivity.
        -- intros k h [].
Qed.

Lemma Read_frame (fuel : nat) (s s' : ES.EventSource) ev res log :
  ES.Read transport parse fuel s = Some (ev, res, s', log) ->
  (res = None ->
     ES.lastEventID s' = (if negb (is_empty (ID ev)) || ResetID ev
                          then ID ev else ES.lastEventID s) /\
     ES.retry s' = (if negb (is_empty (Retry ev))
                    then match Atoi (Retry ev) with
                         | Some v => wrap64 (v * Millisecond)
                         | None => ES.retry s
                         end
                    else ES.retry s)) /\
  (res <> None -> ES.lastEventID s' = ES.lastEventID s /\ ES.retry s' = ES.retry s) /\
  (forall k h, In (EDo k h) log -> h = Some (ES.lastEventID s)).
Proof.
  unfold ES.Read. intro H. destruct (ES.r s).
  - exact (read_loop_frame _ _ _ _ _ _ H).
  - destruct (ES.connect transport parse fuel s) as [[s1 l1]|] eqn:Ec; [|discriminate H].
    destruct (connect_frame _ _ _ _ Ec) as (Hl1 & Hr1 & Hd1).
    unfold ES.after in H.
    destruct (ES.read_loop transport parse fuel s1) as [[[[ev' res'] s''] l']|] eqn:Er;
      [|discriminate H].
    injection H as <- <- <- <-.
    destruct (read_loop_frame _ _ _ _ _ _ Er) as (Hn & Hs & Hd).
    rewrite Hl1, Hr1 in Hn, Hs. rewrite Hl1 in Hd.
    split; [exact Hn|]. split; [exact Hs|].
    intros k h Hin. apply in_app_or in Hin. destruct Hin as [Hin|Hin].
    + exact (Hd1 k h Hin).
    + exact (Hd k h Hin).
Qed.

(** A pass of connect from a client with no open body neither closes a
    body nor waits; unless it succeeds, the client still has no open body. *)
Lemma connect_step_no_body (s s1 : ES.EventSource) (l : list effect) (done : bool) :
  ES.r s = None -> ES.connect_step transport parse s = (s1, l, done) ->
  (forall t, ~ In (ESleep t) l) /\ (done = false -> ES.r s1 = None).
Proof.
  intros Hr H. rewrite connect_step_unfold in H. cbv zeta in H. rewrite Hr in H.
  destruct (transport (ES.attempts s) (ES.lastEventID s)) as [e|resp];
   [ destruct (errors_is e Canceled)
   | destruct (500 <=? StatusCode resp)%Z;
     [| destruct (StatusCode resp =? 204)%Z;
        [| destruct (StatusCode resp =? 200)%Z;
           [ destruct (bytes_eqb (parse (ContentType resp)) (bs "text/event-stream")) |]]]];
  injection H as <- <- <-;
  (split; [ intros t Hin; cbn [In app] in Hin;
            repeat match type of Hin with _ \/ _ => destruct Hin as [Hin|Hin] end;
            first [discriminate Hin | contradiction Hin]
          | intro Hd; first [discriminate Hd | exact Hr]]).
Qed.

End ReadLemmas.

(** ** C3 *)

(** C3.  Close records ErrClosed; once an error E is recorded (by Close or
    by a fatal outcome of connect), every later Read returns the zero Event
    with that same E, leaves the client as it is and makes no request, no
    decode and no other effect. *)
Theorem terminal_error_sticky (transport : nat -> bytes -> outcome)
    (parse : bytes -> bytes) :
  (forall s, ES.err (fst (ES.Close s)) = Some ErrClosed) /\
  (forall n fuel s E, ES.err s = Some E ->
     ES.reads transport parse n fuel s = Some (repeat (zero_event, Some E) n, s, [])).
Proof.
  split; [reflexivity|].
  intros n fuel s E H. induction n as [|n IH]; [reflexivity|].
  cbn [ES.reads]. rewrite (Read_terminal transport parse fuel s E H), IH. reflexivity.
Qed.

Lemma terminal_error_sticky_witness :
  ES.reads (flaky_transport []) plain_media_type 3 5 (fst (ES.Close (ES.NewConfig 0)))
  = Some (repeat (zero_event, Some ErrClosed) 3, fst (ES.Close (ES.NewConfig 0)), []).
Proof.
  exact (proj2 (terminal_error_sticky (flaky_transport []) plain_media_type)
           3 5 (fst (ES.Close (ES.NewConfig 0))) ErrClosed eq_refl).
Defined.

(** ** C4 *)

(** C4.  A call of Read that delivers an event (no error) sets lastEventID
    to the event's ID when that ID is non-empty or ResetID is set, and
    leaves it unchanged otherwise; a call that returns an error leaves it
    unchanged; every request the call makes carries the header
    Last-Event-Id set to lastEventID as it was when the call began, which
    is also its value during all of the call's connection attempts. *)
Theorem last_event_id_sticky (transport : nat -> bytes -> outcome)
    (parse : bytes -> bytes) (fuel : nat) (s s' : ES.EventSource) ev res log :
  ES.Read transport parse fuel s = Some (ev, res, s', log) ->
  (res = None ->
     ES.lastEventID s' = (if negb (is_empty (ID ev)) || ResetID ev
                          then ID ev else ES.lastEventID s)) /\
  (res <> None -> ES.lastEventID s' = ES.lastEventID s) /\
  (forall k h, In (EDo k h) log -> h = Some (ES.lastEventID s)).
Proof.
  intro H. destruct (Read_frame _ _ _ _ _ _ _ _ H) as (Hn & He & Hd).
  split; [intro Hr; exact (proj1 (Hn Hr))|].
  split; [intro Hr; exact (proj1 (He Hr))|].
  exact Hd.
Qed.

Lemma last_event_id_sticky_witness :
  ES.Read (fun _ _ => stream_response (bs "id: 7" ++ nl :: bs "data: x" ++ [nl; nl]))
          plain_media_type 5 (ES.NewConfig 0)
  = Some (mkEvent (bs "message") (bs "7") [] (bs "x") false, None,
          ES.mkES 1000000000 None (Some 0) (Dec.mkDecoder (mkStream [] EOF) true)
                  (bs "7") (Some []) 1,
          [EDo 0 (Some [])]) /\
  ES.lastEventID (ES.mkES 1000000000 None (Some 0) (Dec.mkDecoder (mkStream [] EOF) true)
                          (bs "7") (Some []) 1) = bs "7".
Proof.
  assert (H : ES.Read (fun _ _ => stream_response (bs "id: 7" ++ nl :: bs "data: x" ++ [nl; nl]))
          plain_media_type 5 (ES.NewConfig 0)
  = Some (mkEvent (bs "message") (bs "7") [] (bs "x") false, None,
          ES.mkES 1000000000 None (Some 0) (Dec.mkDecoder (mkStream [] EOF) true)
                  (bs "7") (Some []) 1,
          [EDo 0 (Some [])])) by (vm_compute; reflexivity).
  split; [exact H|].
  exact (proj1 (last_event_id_sticky _ _ _ _ _ _ _ _ H) eq_refl).
Defined.

(** ** C6 *)

(** C6 (counterexample).  "retry: -1" is not a non-negative integer, yet
    the Read that delivers its event sets the retry interval from the
    default second to -1ms. *)
Lemma retry_negative_counterexample :
  ES.retry (ES.NewConfig 0) = 1000000000%Z /\
  match ES.Read (fun _ _ => stream_response (bs "retry: -1" ++ nl :: bs "data: x" ++ [nl; nl]))
                plain_media_type 5 (ES.NewConfig 0) with
  | Some (ev, None, s', _) => Retry ev = bs "-1" /\ ES.retry s' = (-1000000)%Z
  | _ => False
  end.
Proof. vm_compute. split; [reflexivity|]. split; reflexivity. Qed.

(** C6 (amended).  When Read delivers an event with a non-empty Retry, the
    retry interval becomes that many milliseconds (as an int64 product
    time.Duration(n) * time.Millisecond) whenever strconv.Atoi accepts the
    string, a signed one included, and stays as it was otherwise; with an
    empty Retry it stays too.  "10000" gives ten seconds, a malformed
    value such as "1x" is ignored. *)
Theorem retry_update (transport : nat -> bytes -> outcome) (parse : bytes -> bytes)
    (fuel : nat) (s s' : ES.EventSource) ev log :
  ES.Read transport parse fuel s = Some (ev, None, s', log) ->
  ES.retry s' = (if negb (is_empty (Retry ev))
                 then match Atoi (Retry ev) with
                      | Some v => wrap64 (v * Millisecond)
                      | None => ES.retry s
                      end
                 else ES.retry s) /\
  Atoi (bs "10000") = Some 10000%Z /\
  wrap64 (10000 * Millisecond) = (10 * 1000 * Millisecond)%Z /\
  Atoi (bs "1x") = None.
Proof.
  intro H. split.
  - exact (proj2 (proj1 (Read_frame _ _ _ _ _ _ _ _ H) eq_refl)).
  - split; [reflexivity|]. split; [reflexivity|]. reflexivity.
Qed.

Lemma retry_update_witness :
  ES.Read (fun _ _ => stream_response (bs "retry: 10000" ++ nl :: bs "data: x" ++ [nl; nl]))
          plain_media_type 5 (ES.NewConfig 0)
  = Some (mkEvent (bs "message") [] (bs "10000") (bs "x") false, None,
          ES.mkES 10000000000 None (Some 0) (Dec.mkDecoder (mkStream [] EOF) true)
                  [] (Some []) 1,
          [EDo 0 (Some [])]) /\
  ES.retry (ES.mkES 10000000000 None (Some 0) (Dec.mkDecoder (mkStream [] EOF) true)
                    [] (Some []) 1) = (10 * 1000 * Millisecond)%Z.
Proof.
  assert (H : ES.Read (fun _ _ => stream_response (bs "retry: 10000" ++ nl :: bs "data: x" ++ [nl; nl]))
          plain_media_type 5 (ES.NewConfig 0)
  = Some (mkEvent (bs "message") [] (bs "10000") (bs "x") false, None,
          ES.mkES 10000000000 None (Some 0) (Dec.mkDecoder (mkStream [] EOF) true)
                  [] (Some []) 1,
          [EDo 0 (Some [])])) by (vm_compute; reflexivity).
  split; [exact H|].
  exact (proj1 (retry_update _ _ _ _ _ _ _ H)).
Defined.

(** ** C7 *)

(** C7.  connect waits only when the client has an open body: from a
    client that has never connected, a failed attempt (here a 500) is
    followed at once by the next request, with no wait of the retry
    interval in between. *)
Theorem connect_retries_without_wait :
  (forall (transport : nat -> bytes -> outcome) (parse : bytes -> bytes) s s1 l done,
     ES.r s = None -> ES.connect_step transport parse s = (s1, l, done) ->
     (forall t, ~ In (ESleep t) l) /\ (done = false -> ES.r s1 = None)) /\
  match ES.connect (flaky_transport (bs "data: x" ++ [nl; nl])) plain_media_type 5
                   (ES.NewConfig 0) with
  | Some (_, log) => log = [EDo 0 (Some []); ECloseBody 0; EDo 1 (Some [])] /\
                     ~ In (ESleep (ES.retry (ES.NewConfig 0))) log
  | None => False
  end.
Proof.
  split.
  - intros transport parse. apply connect_step_no_body.
  - vm_compute. split; [reflexivity|].
    intro Hin. repeat destruct Hin as [Hin|Hin]; first [discriminate Hin | exact Hin].
Qed.

(** * Further properties of the decoder *)

(** Closes [~ In x l] for concrete [x] and [l]. *)
Ltac not_in_lit :=
  let C := fresh "C" in
  intro C; cbn [bs list_ascii_of_string In] in C;
  repeat destruct C as [C|C]; first [discriminate C | exact C].

Lemma in_range_ascii (lo hi : nat) (c : ascii) :
  128 <= lo -> nat_of_ascii c < 128 -> in_range lo hi c = false.
Proof.
  intros H Hc. unfold in_range.
  destruct (lo <=? nat_of_ascii c) eqn:E; [apply Nat.leb_le in E; lia | reflexivity].
Qed.

Lemma cont_ascii (c : ascii) : nat_of_ascii c < 128 -> cont c = false.
Proof. intro Hc. apply in_range_ascii; lia. Qed.

Lemma utf8_valid_cons_ascii (c : ascii) (b : bytes) :
  nat_of_ascii c < 128 -> utf8_valid (c :: b) = utf8_valid b.
Proof.
  intro Hc. cbn [utf8_valid]. rewrite (proj2 (Nat.ltb_lt _ _) Hc). reflexivity.
Qed.

(** An ASCII byte splits the validity of UTF-8 text. *)
Lemma utf8_valid_app_ascii (c : ascii) (a b : bytes) :
  nat_of_ascii c < 128 ->
  utf8_valid (a ++ c :: b) = utf8_valid a && utf8_valid b.
Proof.
  intro Hc.
  assert (Hcb : utf8_valid (c :: b) = utf8_valid b) by (apply utf8_valid_cons_ascii, Hc).
  remember (List.length a) as n eqn:Hn. revert a Hn.
  induction n as [n IH] using lt_wf_ind. intros a Hn.
  destruct a as [|c0 t]; [exact Hcb|].
  cbn [app utf8_valid].
  destruct (nat_of_ascii c0 <? 128) eqn:Ha.
  { apply (IH (List.length t)); cbn in Hn; [lia | reflexivity]. }
  destruct (first_class c0) as [lo hi|lo hi|lo hi|] eqn:Hf; [..|reflexivity];
    (assert (Hlo : 128 <= lo) by (apply (first_class_lo c0 lo hi); auto));
    pose proof (in_range_ascii lo hi c Hlo Hc) as Hr; pose proof (cont_ascii c Hc) as Hk.
  - destruct t as [|c1 t1]; cbn [app].
    + rewrite Hr. reflexivity.
    + rewrite (IH (List.length t1)) by (cbn in Hn; lia). apply andb_assoc.
  - destruct t as [|c1 [|c2 t2]]; cbn [app].
    + destruct b; [reflexivity|]. rewrite Hr. reflexivity.
    + rewrite Hk, andb_false_r. reflexivity.
    + rewrite (IH (List.length t2)) by (cbn in Hn; lia). rewrite !andb_assoc. reflexivity.
  - destruct t as [|c1 [|c2 [|c3 t3]]]; cbn [app].
    + destruct b as [|? [|? ?]]; [reflexivity | reflexivity |]. rewrite Hr. reflexivity.
    + destruct b; [reflexivity|]. rewrite Hk, andb_false_r. reflexivity.
    + rewrite Hk, andb_false_r. reflexivity.
    + rewrite (IH (List.length t3)) by (cbn in Hn; lia). rewrite !andb_assoc. reflexivity.
Qed.

Lemma cut_spec (l f v : bytes) :
  cut l = (f, v) ->
  (l = f ++ colon_c :: v /\ ~ In colon_c f) \/ (l = f /\ v = [] /\ ~ In colon_c l).
Proof.
  revert f v. induction l as [|c t IH]; intros f v H; cbn [cut] in H.
  - injection H as <- <-. right. repeat split. intros [].
  - destruct (ascii_eqb c colon_c) eqn:E.
    + apply ascii_eqb_true in E. subst c. injection H as <- <-. left. split; [reflexivity | intros []].
    + destruct (cut t) as [a b]. injection H as <- <-.
      assert (Hne : c <> colon_c) by (intro C; subst; rewrite ascii_eqb_refl in E; discriminate).
      destruct (IH a b eq_refl) as [[-> Ha] | (-> & -> & Ha)].
      * left. split; [reflexivity|]. intros [C|C]; [congruence | contradiction].
      * right. split; [reflexivity|]. split; [reflexivity|]. intros [C|C]; [congruence | contradiction].
Qed.

(** The field and value ReadField makes of a line are valid UTF-8 exactly
    when the line is. *)
Lemma cut_valid (l f v : bytes) :
  cut l = (f, v) ->
  utf8_valid f && utf8_valid (match v with
                              | c :: v' => if ascii_eqb c space_c then v' else v
                              | [] => v
                              end) = utf8_valid l.
Proof.
  intro H.
  assert (Hv : utf8_valid (match v with
                           | c :: v' => if ascii_eqb c space_c then v' else v
                           | [] => v
                           end) = utf8_valid v).
  { destruct v as [|c v']; [reflexivity|].
    destruct (ascii_eqb c space_c) eqn:E; [|reflexivity].
    apply ascii_eqb_true in E. subst c. symmetry. apply utf8_valid_cons_ascii.
    cbv; lia. }
  rewrite Hv.
  destruct (cut_spec l f v H) as [[-> _] | (-> & -> & _)].
  - symmetry. apply utf8_valid_app_ascii. cbv; lia.
  - apply andb_true_r.
Qed.

Lemma ReadField_line (line rest : bytes) (er : error) :
  line <> [] -> ~ In nl line ->
  Dec.ReadField (Dec.mkDecoder (mkStream (line ++ nl :: rest) er) true) =
  match trim_cr line with
  | [] => (Dec.mkDecoder (mkStream rest er) true, [], [], None)
  | _ =>
      let '(f, v) := cut (trim_cr line) in
      let v := match v with
               | c :: v' => if ascii_eqb c space_c then v' else v
               | [] => v
               end in
      if utf8_valid f && utf8_valid v
      then (Dec.mkDecoder (mkStream rest er) true, f, v, None)
      else (Dec.mkDecoder (mkStream rest er) true, [], [], Some ErrInvalidEncoding)
  end.
Proof.
  intros Hne Hnl. unfold Dec.ReadField. cbn [Dec.checkedBOM Dec.r].
  rewrite readLine_line by assumption. reflexivity.
Qed.

Lemma trim_cr_cons_not_cr (c : ascii) (x : bytes) :
  c <> cr -> trim_cr (c :: x) = c :: trim_cr x.
Proof.
  intro H. destruct x as [|y x].
  - cbn [trim_cr]. rewrite (ascii_eqb_false _ _ H). reflexivity.
  - apply trim_cr_cons. discriminate.
Qed.

Lemma colon_not_cr : colon_c <> cr.
Proof. discriminate. Qed.

Lemma space_not_cr : space_c <> cr.
Proof. discriminate. Qed.

(** ReadField on a line "name: value" (one space dropped), "name:value"
    and "name" without colon, as in TestDecoderReadField. *)
Theorem readField_parse (f v rest : bytes) (er : error) :
  ~ In colon_c f -> ~ In nl f -> ~ In nl v -> trim_cr v = v ->
  utf8_valid f = true -> utf8_valid v = true ->
  Dec.ReadField (Dec.mkDecoder (mkStream (f ++ colon_c :: space_c :: v ++ nl :: rest) er) true)
    = (Dec.mkDecoder (mkStream rest er) true, f, v, None) /\
  (hd_error v <> Some space_c ->
   Dec.ReadField (Dec.mkDecoder (mkStream (f ++ colon_c :: v ++ nl :: rest) er) true)
     = (Dec.mkDecoder (mkStream rest er) true, f, v, None)) /\
  (f <> [] -> trim_cr f = f ->
   Dec.ReadField (Dec.mkDecoder (mkStream (f ++ nl :: rest) er) true)
     = (Dec.mkDecoder (mkStream rest er) true, f, [], None)).
Proof.
  intros Hc Hnf Hnv Htv Hvf Hvv.
  assert (Hnl1 : ~ In nl (f ++ colon_c :: space_c :: v)).
  { intro H. apply in_app_or in H. destruct H as [H|[H|[H|H]]];
      [exact (Hnf H) | discriminate H | discriminate H | exact (Hnv H)]. }
  assert (Hnl2 : ~ In nl (f ++ colon_c :: v)).
  { intro H. apply in_app_or in H. destruct H as [H|[H|H]];
      [exact (Hnf H) | discriminate H | exact (Hnv H)]. }
  split; [|split].
  - pose proof (ReadField_line (f ++ colon_c :: space_c :: v) rest er) as H.
    rewrite <- app_assoc in H. cbn [app] in H. rewrite H; clear H;
      [| destruct f; discriminate | exact Hnl1].
    rewrite trim_cr_app by discriminate.
    rewrite (trim_cr_cons_not_cr _ _ colon_not_cr), (trim_cr_cons_not_cr _ _ space_not_cr), Htv.
    rewrite (cut_app_colon _ _ Hc), ascii_eqb_refl, Hvf, Hvv.
    destruct (f ++ colon_c :: space_c :: v) as [|x y] eqn:E; [destruct f; discriminate E|].
    reflexivity.
  - intro Hsp.
    pose proof (ReadField_line (f ++ colon_c :: v) rest er) as H.
    rewrite <- app_assoc in H. cbn [app] in H. rewrite H; clear H;
      [| destruct f; discriminate | exact Hnl2].
    rewrite trim_cr_app by discriminate.
    rewrite (trim_cr_cons_not_cr _ _ colon_not_cr), Htv.
    rewrite (cut_app_colon _ _ Hc).
    destruct v as [|c v'].
    + rewrite Hvf.
      destruct (f ++ [colon_c]) as [|x y] eqn:E; [destruct f; discriminate E|]. reflexivity.
    + assert (Hne : c <> space_c) by (intro C; apply Hsp; subst c; reflexivity).
      rewrite (ascii_eqb_false _ _ Hne), Hvf, Hvv.
      destruct (f ++ colon_c :: c :: v') as [|x y] eqn:E; [destruct f; discriminate E|].
      reflexivity.
  - intros Hne Htf. rewrite ReadField_line by assumption. rewrite Htf.
    rewrite (cut_no_colon _ Hc), Hvf.
    destruct f as [|x y]; [contradiction Hne; reflexivity|]. reflexivity.
Qed.

Lemma readField_parse_witness :
  Dec.ReadField (Dec.mkDecoder (mkStream (bs "id" ++ colon_c :: space_c :: bs "1" ++ [nl]) EOF) true)
    = (Dec.mkDecoder (mkStream [] EOF) true, bs "id", bs "1", None).
Proof.
  refine (proj1 (readField_parse (bs "id") (bs "1") [] EOF _ _ _ _ _ _));
    first [reflexivity | not_in_lit].
Defined.

(** ReadField on a complete line never fails with anything but
    ErrInvalidEncoding, fails exactly when the line is not valid UTF-8,
    and consumes the line in every case. *)
Theorem readField_invalid_line (line rest : bytes) (er : error) :
  line <> [] -> ~ In nl line ->
  let res := Dec.ReadField (Dec.mkDecoder (mkStream (line ++ nl :: rest) er) true) in
  (snd res = Some ErrInvalidEncoding <-> utf8_valid (trim_cr line) = false) /\
  (snd res = None \/ snd res = Some ErrInvalidEncoding) /\
  fst (fst (fst res)) = Dec.mkDecoder (mkStream rest er) true.
Proof.
  intros Hne Hnl res. subst res. rewrite ReadField_line by assumption.
  destruct (trim_cr line) as [|c t] eqn:Et.
  - cbn. split; [split; discriminate|]. split; [left|]; reflexivity.
  - rewrite <- Et. destruct (cut (trim_cr line)) as [f v] eqn:Ec.
    pose proof (cut_valid _ _ _ Ec) as Hv. cbv beta iota zeta. rewrite Hv.
    destruct (utf8_valid (trim_cr line)); cbn [fst snd].
    + split; [split; discriminate|]. split; [left|]; reflexivity.
    + split; [split; reflexivity|]. split; [right|]; reflexivity.
Qed.

Lemma readField_invalid_line_witness :
  snd (Dec.ReadField (Dec.mkDecoder
         (mkStream ([ascii_of_nat 255; ascii_of_nat 254] ++ nl :: bs "data: x") EOF) true))
  = Some ErrInvalidEncoding.
Proof.
  refine (proj2 (proj1 (readField_invalid_line [ascii_of_nat 255; ascii_of_nat 254]
                          (bs "data: x") EOF _ _)) _).
  - discriminate.
  - not_in_lit.
  - reflexivity.
Defined.

(** Decode's loop gives the same result with any fuel larger than the
    input: its [0] case is never reached. *)
Lemma decode_loop_fuel (n m : nat) (d : Dec.Decoder) (w : bool) (e : Event) :
  List.length (sbytes (Dec.r d)) < n -> List.length (sbytes (Dec.r d)) < m ->
  Dec.decode_loop n d w e = Dec.decode_loop m d w e.
Proof.
  revert m d w e. induction n as [|n IH]; intros m d w e Hn Hm; [lia|].
  destruct m as [|m]; [lia|]. rewrite !decode_loop_S.
  destruct (Dec.ReadField d) as [[[d1 f] v] [err|]] eqn:E; [reflexivity|].
  destruct (is_empty f && is_empty v); [reflexivity|].
  destruct (Dec.apply_field f v w e) as [e1 w1].
  pose proof (ReadField_length _ _ _ _ E). apply IH; lia.
Qed.

Lemma checkBOM_not_bom (s : Stream) :
  sbytes s <> [] -> firstn 3 (sbytes s) <> utf8_bom ->
  Dec.checkBOM (Dec.mkDecoder s false) = Dec.mkDecoder s true.
Proof.
  intros Hne Hb. unfold Dec.checkBOM. cbn [Dec.r].
  destruct (sbytes s) as [|c1 [|c2 [|c3 t]]] eqn:E; [contradiction Hne; reflexivity | reflexivity | reflexivity|].
  destruct (nat_of_ascii c1 =? 239) eqn:E1; [|reflexivity].
  destruct (nat_of_ascii c2 =? 187) eqn:E2; [|reflexivity].
  destruct (nat_of_ascii c3 =? 191) eqn:E3; [|reflexivity].
  exfalso. apply Hb. cbn [firstn].
  apply Nat.eqb_eq in E1, E2, E3.
  rewrite <- (ascii_nat_embedding c1), <- (ascii_nat_embedding c2),
          <- (ascii_nat_embedding c3), E1, E2, E3. reflexivity.
Qed.

(** A stream that starts with the UTF-8 byte-order mark decodes as the
    stream without it; a stream that does not start with it decodes as it
    is (checkBOM unreads the rune). *)
Theorem decode_skips_bom (b : bytes) (er : error) (e : Event) :
  Dec.Decode (Dec.NewDecoder (mkStream (utf8_bom ++ b) er)) e
  = Dec.Decode (Dec.mkDecoder (mkStream b er) true) e /\
  (forall s, sbytes s <> [] -> firstn 3 (sbytes s) <> utf8_bom ->
     Dec.Decode (Dec.NewDecoder s) e = Dec.Decode (Dec.mkDecoder s true) e).
Proof.
  split.
  - unfold Dec.Decode. rewrite !decode_loop_S.
    assert (H : Dec.ReadField (Dec.NewDecoder (mkStream (utf8_bom ++ b) er))
                = Dec.ReadField (Dec.mkDecoder (mkStream b er) true)) by reflexivity.
    rewrite H. cbn [Dec.r sbytes].
    destruct (Dec.ReadField (Dec.mkDecoder (mkStream b er) true)) as [[[d1 f] v] [err|]] eqn:E;
      [reflexivity|].
    destruct (is_empty f && is_empty v); [reflexivity|].
    destruct (Dec.apply_field f v false (set_Type e (bs "message"))) as [e1 w1].
    pose proof (ReadField_length _ _ _ _ E) as Hl. cbn [Dec.r sbytes] in Hl.
    apply decode_loop_fuel; cbn [List.length utf8_bom app Dec.r sbytes Dec.NewDecoder]; lia.
  - intros s Hne Hb. unfold Dec.Decode. cbn [Dec.r Dec.NewDecoder]. rewrite !decode_loop_S.
    assert (H : Dec.ReadField (Dec.NewDecoder s) = Dec.ReadField (Dec.mkDecoder s true)).
    { unfold Dec.ReadField, Dec.NewDecoder. cbn [Dec.checkedBOM].
      rewrite (checkBOM_not_bom s Hne Hb). reflexivity. }
    first [rewrite H | (unfold Dec.NewDecoder in H; rewrite H)]. reflexivity.
Qed.

Lemma decode_skips_bom_witness :
  Dec.Decode (Dec.NewDecoder (mkStream (bs "data: x" ++ [nl; nl]) EOF)) zero_event
  = Dec.Decode (Dec.mkDecoder (mkStream (bs "data: x" ++ [nl; nl]) EOF) true) zero_event.
Proof.
  apply (proj2 (decode_skips_bom [] EOF zero_event)).
  - discriminate.
  - discriminate.
Defined.

Lemma decode_loop_success n d w e d' e' :
  List.length (sbytes (Dec.r d)) < n ->
  Dec.decode_loop n d w e = (d', e', None) ->
  exists dk, rf_steps d dk /\ Dec.ReadField dk = (d', [], [], None).
Proof.
  revert d w e. induction n as [|n IH]; intros d w e Hn H; [lia|].
  rewrite decode_loop_S in H.
  destruct (Dec.ReadField d) as [[[d1 f] v] [err|]] eqn:E; [discriminate H|].
  destruct (is_empty f && is_empty v) eqn:Hb.
  - injection H as -> _. exists d. split; [constructor|].
    destruct f; [|discriminate Hb]. destruct v; [|discriminate Hb]. exact E.
  - destruct (Dec.apply_field f v w e) as [e1 w1].
    pose proof (ReadField_length _ _ _ _ E).
    destruct (IH d1 w1 e1 ltac:(lia) H) as (dk & Hs & Hk).
    exists dk. split; [econstructor; eassumption | exact Hk].
Qed.

(** Decode returns without error only after ReadField has signalled the
    end of the event: an event whose block the stream cuts off before the
    empty line comes back with an error. *)
Theorem decode_needs_boundary (d : Dec.Decoder) (e : Event) d' e' :
  Dec.Decode d e = (d', e', None) ->
  exists dk, rf_steps d dk /\ Dec.ReadField dk = (d', [], [], None).
Proof.
  intro H. unfold Dec.Decode in H. eapply decode_loop_success; [|exact H]. lia.
Qed.

Lemma decode_needs_boundary_witness :
  exists dk, rf_steps (Dec.NewDecoder (mkStream (bs "data: x" ++ [nl; nl]) EOF)) dk /\
             Dec.ReadField dk = (Dec.mkDecoder (mkStream [] EOF) true, [], [], None).
Proof.
  apply (decode_needs_boundary _ zero_event _ (mkEvent (bs "message") [] [] (bs "x") false)).
  vm_compute. reflexivity.
Defined.

(** Consecutive "data" lines decode to their values joined by "\n". *)
Theorem decode_data_lines (segs : list bytes) (rest : bytes) (er : error) (e : Event) :
  segs <> [] -> Forall good_value segs ->
  Dec.Decode (Dec.mkDecoder
                (mkStream (line_bytes (map (fun s => (bs "data", s)) segs) ++ nl :: rest) er)
                true) e
  = (Dec.mkDecoder (mkStream rest er) true,
     set_Data (set_Type e (bs "message")) (Data e ++ join_nl segs), None).
Proof.
  intros Hne Hg. unfold Dec.Decode. cbn [Dec.r sbytes].
  rewrite decode_lines.
  - destruct segs as [|s ss]; [contradiction Hne; reflexivity|].
    cbn [map apply_fields]. 
    replace (Dec.apply_field (bs "data") s false (set_Type e (bs "message")))
      with (set_Data (set_Type e (bs "message")) (Data e ++ s), true) by reflexivity.
    rewrite apply_data_true, join_nl_concat. cbn [fst Data set_Data set_Type].
    rewrite app_assoc. reflexivity.
  - apply Forall_forall. intros [f v] Hin. apply in_map_iff in Hin.
    destruct Hin as (x & Hx & Hin). injection Hx as <- <-. split.
    + apply good_name_lit; [discriminate | reflexivity | reflexivity | reflexivity].
    + exact (proj1 (Forall_forall _ _) Hg x Hin).
  - pose proof (line_bytes_length (map (fun s => (bs "data", s)) segs)).
    rewrite length_app. cbn [List.length]. lia.
Qed.

Lemma decode_data_lines_witness :
  Dec.Decode (Dec.mkDecoder
                (mkStream (line_bytes (map (fun s => (bs "data", s)) [bs "a"; bs "b"])
                           ++ nl :: []) EOF) true) zero_event
  = (Dec.mkDecoder (mkStream [] EOF) true,
     set_Data (set_Type zero_event (bs "message")) (Data zero_event ++ join_nl [bs "a"; bs "b"]),
     None).
Proof.
  apply decode_data_lines.
  - discriminate.
  - repeat constructor; first [not_in_lit | reflexivity].
Defined.

(** * Further properties of the encoder *)

Lemma WriteField_lit (f v : bytes) :
  utf8_valid f = true ->
  Enc.WriteField f v = if utf8_valid v then (line_bytes (field_lines f v), None)
                       else ([], Some ErrInvalidEncoding).
Proof.
  intro Hf. unfold Enc.WriteField. rewrite Hf. cbn [andb].
  destruct (utf8_valid v); [apply write_lines_out | reflexivity].
Qed.

Ltac split_event_flags E :=
  destruct (ResetID E), (is_empty (ID E)), (is_empty (Retry E)), (is_empty (Type_ E)),
    (utf8_valid (ID E)), (utf8_valid (Retry E)), (utf8_valid (Type_ E)), (utf8_valid (Data E)).

(** Encode fails exactly when a field it would write is not valid UTF-8,
    and then with ErrInvalidEncoding. *)
Lemma Encode_error (E : Event) :
  snd (Enc.Encode E) = if encodable E then None else Some ErrInvalidEncoding.
Proof.
  unfold Enc.Encode, encodable.
  rewrite !WriteField_lit by reflexivity.
  split_event_flags E; reflexivity.
Qed.







Lemma Encode_success_out (E : Event) :
  encodable E = true ->
  Enc.Encode E = (line_bytes (written_fields E) ++ [nl], None).
Proof.
  unfold Enc.Encode, encodable, written_fields.
  rewrite !WriteField_lit by reflexivity.
  split_event_flags E; cbn [andb orb negb]; intro H; try discriminate H;
    cbn [Enc.wseq Enc.ret Enc.Flush app]; rewrite ?line_bytes_app, <- ?app_assoc; reflexivity.
Qed.



Lemma trim_cr_cases (l : bytes) : trim_cr l = l \/ l = trim_cr l ++ [cr].
Proof.
  induction l as [|c t IH]; [left; reflexivity|].
  destruct t as [|d t].
  - cbn [trim_cr]. destruct (ascii_eqb c cr) eqn:E; [|left; reflexivity].
    apply ascii_eqb_true in E. subst c. right. reflexivity.
  - rewrite trim_cr_cons by discriminate.
    destruct IH as [H|H]; [left; rewrite H; reflexivity | right; cbn [app]; rewrite <- H; reflexivity].
Qed.

Lemma utf8_valid_trim_cr (l : bytes) : utf8_valid l = true -> utf8_valid (trim_cr l) = true.
Proof.
  intro H. destruct (trim_cr_cases l) as [E|E]; [rewrite E; exact H|].
  rewrite E, (utf8_valid_app_ascii cr _ []) in H by (cbv; lia).
  apply andb_true_iff in H. exact (proj1 H).
Qed.

Lemma trim_cr_incl (x : ascii) (l : bytes) : In x (trim_cr l) -> In x l.
Proof.
  intro H. destruct (trim_cr_cases l) as [E|E]; [rewrite E in H; exact H|].
  rewrite E. apply in_or_app. left. exact H.
Qed.

(** A line the encoder writes reads back as its field, whatever the value. *)
Lemma readField_written_any (f v rest : bytes) (er : error) :
  good_name f -> ~ In nl v -> utf8_valid v = true ->
  exists v', Dec.ReadField (Dec.mkDecoder (mkStream (fst (Enc.writeField f v) ++ rest) er) true)
             = (Dec.mkDecoder (mkStream rest er) true, f, v', None).
Proof.
  intros Hf Hn Hv. destruct v as [|c v'].
  - exists []. apply readField_written; [exact Hf|].
    split; [intros []| split; reflexivity].
  - destruct Hf as (Hf0 & Hfc & Hfn & Hfu & Hfr).
    unfold Enc.writeField. cbn [is_empty fst].
    replace ((f ++ bs ": " ++ (c :: v') ++ [nl]) ++ rest)
      with ((f ++ colon_c :: space_c :: c :: v') ++ nl :: rest)
      by (rewrite <- !app_assoc; reflexivity).
    rewrite ReadField_line.
    2: destruct f; [contradiction | discriminate].
    2: { intro H. apply in_app_or in H. destruct H as [H|[H|[H|H]]];
           [exact (Hfn H) | discriminate H | discriminate H | exact (Hn H)]. }
    rewrite trim_cr_app by discriminate.
    rewrite (trim_cr_cons_not_cr _ _ colon_not_cr), (trim_cr_cons_not_cr _ _ space_not_cr).
    rewrite (cut_app_colon _ _ Hfc). cbv beta iota zeta. rewrite ascii_eqb_refl.
    rewrite Hfu, (utf8_valid_trim_cr _ Hv).
    exists (trim_cr (c :: v')).
    destruct (f ++ colon_c :: space_c :: trim_cr (c :: v')) as [|x y] eqn:E;
      [destruct f; discriminate E | reflexivity].
Qed.

(** Decode's loop consumes a block of encoder lines and the empty line
    after it, and stops there without error. *)
Lemma decode_lines_any (fs : list (bytes * bytes)) :
  Forall written_line fs ->
  forall n w e rest er, List.length fs < n ->
  exists e', Dec.decode_loop n (Dec.mkDecoder (mkStream (line_bytes fs ++ nl :: rest) er) true) w e
             = (Dec.mkDecoder (mkStream rest er) true, e', None).
Proof.
  induction 1 as [|[f v] fs (Hf & Hn & Hv) Hfs IH]; intros n w e rest er Hlen;
    (destruct n as [|n]; [cbn in Hlen; lia|]); rewrite decode_loop_S.
  - exists e. cbn [line_bytes app]. unfold Dec.ReadField, readLine.
    cbn [Dec.checkedBOM Dec.r sbytes serr break_nl].
    rewrite ascii_eqb_refl. reflexivity.
  - cbn [line_bytes]. rewrite <- app_assoc. cbn [fst snd] in Hf, Hn, Hv.
    destruct (readField_written_any f v (line_bytes fs ++ nl :: rest) er Hf Hn Hv) as [v' ->].
    destruct f as [|c f']; [destruct Hf; contradiction|]. cbn [is_empty andb].
    destruct (Dec.apply_field (c :: f') v' w e) as [e1 w1].
    apply IH. cbn in Hlen. lia.
Qed.

Lemma field_lines_written (f v : bytes) :
  good_name f -> utf8_valid v = true -> Forall written_line (field_lines f v).
Proof.
  intros Hf Hv. pose proof (utf8_valid_split v Hv) as Hu. pose proof (split_nl_no_nl v) as Hn.
  unfold field_lines. apply Forall_forall. intros [f' v'] Hin.
  apply in_map_iff in Hin as (s & Heq & Hs). injection Heq as <- <-.
  rewrite Forall_forall in Hu, Hn. split; [exact Hf|]. split; cbn [snd].
  - intro C. exact (Hn s Hs (trim_cr_incl _ _ C)).
  - exact (utf8_valid_trim_cr _ (Hu s Hs)).
Qed.

Lemma written_fields_lines (E : Event) :
  encodable E = true -> Forall written_line (written_fields E).
Proof.
  unfold encodable, written_fields. intro H.
  apply andb_true_iff in H as [H HD]. apply andb_true_iff in H as [H HT].
  apply andb_true_iff in H as [HI HR].
  assert (Hg : forall f, f = bs "id" \/ f = bs "retry" \/ f = bs "event" \/ f = bs "data" ->
                         good_name f)
    by (intros f [->|[->|[->| ->]]]; apply good_name_lit; first [discriminate | reflexivity]).
  repeat (apply Forall_app; split).
  - destruct (ResetID E || negb (is_empty (ID E))); [|constructor].
    apply field_lines_written; [apply Hg; auto | exact HI].
  - destruct (negb (is_empty (Retry E))); [|constructor].
    apply field_lines_written; [apply Hg; auto | exact HR].
  - destruct (negb (is_empty (Type_ E))); [|constructor].
    apply field_lines_written; [apply Hg; auto | exact HT].
  - apply field_lines_written; [apply Hg; auto | exact HD].
Qed.

Lemma field_lines_head (f v : bytes) : exists v0 rest, field_lines f v = (f, v0) :: rest.
Proof.
  unfold field_lines. pose proof (split_nl_not_nil v) as Hn.
  destruct (split_nl v) as [|s ss]; [contradiction|]. eexists _, _. reflexivity.
Qed.

Lemma written_fields_first_byte (E : Event) (rest : bytes) :
  exists c t, line_bytes (written_fields E) ++ rest = c :: t /\ nat_of_ascii c <> 239.
Proof.
  unfold written_fields.
  destruct (ResetID E || negb (is_empty (ID E))), (negb (is_empty (Retry E))),
    (negb (is_empty (Type_ E)));
    cbn [app];
    match goal with
    | |- context [line_bytes (field_lines ?f ?v ++ _)] =>
      destruct (field_lines_head f v) as (v0 & fs & ->)
    | |- context [line_bytes (field_lines ?f ?v)] =>
      destruct (field_lines_head f v) as (v0 & fs & ->)
    end;
    cbn [app line_bytes]; unfold Enc.writeField; destruct (is_empty v0);
    cbn [fst]; rewrite <- !app_assoc; eexists _, _; (split; [reflexivity | discriminate]).
Qed.

(** Framing: the bytes a successful Encode writes are read by Decode as
    exactly one event, whatever follows them on the stream and whether
    the decoder has checked for a byte-order mark yet; Decode returns no
    error and leaves the decoder right after the empty line. *)
Theorem encode_frames_event (E : Event) (out rest : bytes) (er : error)
  (checked : bool) (e : Event) :
  Enc.Encode E = (out, None) ->
  exists e', Dec.Decode (Dec.mkDecoder (mkStream (out ++ rest) er) checked) e
             = (Dec.mkDecoder (mkStream rest er) true, e', None).
Proof.
  intro H.
  assert (Hok : encodable E = true).
  { pose proof (Encode_error E) as He. rewrite H in He. cbn [snd] in He.
    destruct (encodable E); [reflexivity | discriminate He]. }
  rewrite (Encode_success_out E Hok) in H. injection H as <-.
  rewrite <- app_assoc. cbn [app].
  pose proof (written_fields_lines E Hok) as Hw.
  assert (Hlen : List.length (written_fields E)
                 < S (List.length (line_bytes (written_fields E) ++ nl :: rest))).
  { pose proof (line_bytes_length (written_fields E)). rewrite length_app. lia. }
  unfold Dec.Decode. cbn [Dec.r sbytes].
  destruct checked.
  - exact (decode_lines_any _ Hw _ _ _ _ _ Hlen).
  - destruct (written_fields_first_byte E (nl :: rest)) as (c & t & Ht & Hc).
    rewrite (decode_loop_skip_BOM (mkStream _ er) c t _ _ _ Ht Hc).
    exact (decode_lines_any _ Hw _ _ _ _ _ Hlen).
Qed.

Lemma encode_frames_event_witness :
  Enc.Encode (mkEvent [] [] [] (bs "a" ++ [cr]) false) = (bs "data: a" ++ [nl; nl], None) /\
  exists e', Dec.Decode (Dec.mkDecoder (mkStream ((bs "data: a" ++ [nl; nl]) ++ bs "data") EOF) false)
                        zero_event
             = (Dec.mkDecoder (mkStream (bs "data") EOF) true, e', None).
Proof.
  split; [vm_compute; reflexivity|].
  apply (encode_frames_event (mkEvent [] [] [] (bs "a" ++ [cr]) false)).
  vm_compute. reflexivity.
Defined.

(** * Further properties of Read *)

Lemma ReadField_invalid (line rest : bytes) (er : error) :
  line <> [] -> ~ In nl line -> utf8_valid (trim_cr line) = false ->
  Dec.ReadField (Dec.mkDecoder (mkStream (line ++ nl :: rest) er) true)
  = (Dec.mkDecoder (mkStream rest er) true, [], [], Some ErrInvalidEncoding).
Proof.
  intros Hne Hnl Hv. rewrite ReadField_line by assumption.
  destruct (trim_cr line) as [|c t] eqn:Et; [discriminate Hv|].
  rewrite <- Et. rewrite <- Et in Hv. destruct (cut (trim_cr line)) as [f v] eqn:Ec.
  pose proof (cut_valid _ _ _ Ec) as Hc. cbv beta iota zeta. rewrite Hc, Hv. reflexivity.
Qed.

(** Decode's loop passes over encoder lines, accumulating their fields. *)
Lemma decode_loop_through (fs : list (bytes * bytes)) :
  Forall written_line fs ->
  forall m w e rest er, exists w' e',
  Dec.decode_loop (List.length fs + m) (Dec.mkDecoder (mkStream (line_bytes fs ++ rest) er) true) w e
  = Dec.decode_loop m (Dec.mkDecoder (mkStream rest er) true) w' e'.
Proof.
  induction 1 as [|[f v] fs (Hf & Hn & Hv) Hfs IH]; intros m w e rest er.
  - exists w, e. reflexivity.
  - cbn [List.length Nat.add line_bytes]. rewrite decode_loop_S, <- app_assoc.
    cbn [fst snd] in Hf, Hn, Hv.
    destruct (readField_written_any f v (line_bytes fs ++ rest) er Hf Hn Hv) as [v' ->].
    destruct f as [|c f']; [destruct Hf; contradiction|]. cbn [is_empty andb].
    destruct (Dec.apply_field (c :: f') v' w e) as [e1 w1].
    apply IH.
Qed.

Lemma decode_fuel_split (fs : list (bytes * bytes)) (rest : bytes) :
  exists m, S (List.length (line_bytes fs ++ rest)) = List.length fs + S m.
Proof.
  pose proof (line_bytes_length fs). rewrite length_app.
  exists (List.length (line_bytes fs) + List.length rest - List.length fs). lia.
Qed.

(** An invalid line in the stream: Read drops it together with the fields
    of the event read before it, and goes on decoding from the next line
    on the same connection, without closing the body, waiting or sending a
    request. *)
Theorem read_skips_invalid_line (transport : nat -> bytes -> outcome) (parse : bytes -> bytes)
  (n : nat) (s : ES.EventSource) (fs : list (bytes * bytes)) (line rest : bytes) (er : error) :
  ES.err s = None ->
  ES.dec s = Dec.mkDecoder (mkStream (line_bytes fs ++ line ++ nl :: rest) er) true ->
  Forall written_line fs ->
  line <> [] -> ~ In nl line -> utf8_valid (trim_cr line) = false ->
  ES.read_loop transport parse (S n) s
  = ES.read_loop transport parse n (ES.set_dec s (Dec.mkDecoder (mkStream rest er) true)).
Proof.
  intros Herr Hdec Hfs Hne Hnl Hv. cbn [ES.read_loop]. rewrite Herr, Hdec.
  unfold Dec.Decode. cbn [Dec.r sbytes].
  destruct (decode_fuel_split fs (line ++ nl :: rest)) as [m ->].
  destruct (decode_loop_through fs Hfs (S m) false (set_Type zero_event (bs "message"))
              (line ++ nl :: rest) er) as (w' & e' & ->).
  rewrite decode_loop_S, (ReadField_invalid _ _ _ Hne Hnl Hv). reflexivity.
Qed.

Lemma read_skips_invalid_line_witness :
  ES.read_loop (fun _ _ => status_response 204 "204 No Content") plain_media_type 2
    (ES.set_body (ES.NewConfig 0) 0
       (Dec.mkDecoder (mkStream (bs "id: 5" ++ nl :: [ascii_of_nat 255] ++ nl :: bs "data: x"
                                 ++ [nl; nl]) EOF) true))
  = Some (mkEvent (bs "message") [] [] (bs "x") false, None,
          ES.set_body (ES.NewConfig 0) 0 (Dec.mkDecoder (mkStream [] EOF) true), []) /\
  ES.read_loop (fun _ _ => status_response 204 "204 No Content") plain_media_type 2
    (ES.set_body (ES.NewConfig 0) 0
       (Dec.mkDecoder (mkStream (line_bytes [(bs "id", bs "5")] ++ [ascii_of_nat 255] ++ nl ::
                                 bs "data: x" ++ [nl; nl]) EOF) true))
  = ES.read_loop (fun _ _ => status_response 204 "204 No Content") plain_media_type 1
      (ES.set_dec (ES.set_body (ES.NewConfig 0) 0
         (Dec.mkDecoder (mkStream (line_bytes [(bs "id", bs "5")] ++ [ascii_of_nat 255] ++ nl ::
                                   bs "data: x" ++ [nl; nl]) EOF) true))
         (Dec.mkDecoder (mkStream (bs "data: x" ++ [nl; nl]) EOF) true)).
Proof.
  split; [vm_compute; reflexivity|].
  apply (read_skips_invalid_line _ _ 1 _ [(bs "id", bs "5")] [ascii_of_nat 255]
           (bs "data: x" ++ [nl; nl]) EOF); first [reflexivity | discriminate | not_in_lit | idtac].
  constructor; [|constructor]. split; [|split; [not_in_lit | reflexivity]].
  apply good_name_lit; first [discriminate | reflexivity].
Defined.

(** A connection that ends in the middle of an event (the body runs out
    after some field lines, without the empty line): Read drops the fields
    read so far and reconnects; what follows does not depend on them. *)
Theorem read_drops_partial_event (transport : nat -> bytes -> outcome) (parse : bytes -> bytes)
  (n : nat) (s : ES.EventSource) (fs : list (bytes * bytes)) (er : error) :
  ES.err s = None ->
  ES.dec s = Dec.mkDecoder (mkStream (line_bytes fs) er) true ->
  Forall written_line fs ->
  errors_is er ErrInvalidEncoding = false ->
  ES.read_loop transport parse (S n) s
  = match ES.connect transport parse n (ES.set_dec s (Dec.mkDecoder (mkStream [] er) true)) with
    | Some (s1, l1) => ES.after l1 (ES.read_loop transport parse n s1)
    | None => None
    end.
Proof.
  intros Herr Hdec Hfs Her. cbn [ES.read_loop]. rewrite Herr, Hdec.
  unfold Dec.Decode. cbn [Dec.r sbytes].
  destruct (decode_fuel_split fs []) as [m Hm]. rewrite app_nil_r in Hm. rewrite Hm.
  pose proof (decode_loop_through fs Hfs (S m) false (set_Type zero_event (bs "message")) [] er)
    as (w' & e' & Hd).
  rewrite app_nil_r in Hd. rewrite Hd, decode_loop_S.
  assert (Hr : Dec.ReadField (Dec.mkDecoder (mkStream [] er) true)
               = (Dec.mkDecoder (mkStream [] er) true, [], [], Some er)) by reflexivity.
  rewrite Hr. cbv beta iota zeta.
  rewrite errors_is_wrap, Her by discriminate. reflexivity.
Qed.

Lemma read_drops_partial_event_witness :
  ES.read_loop (fun _ _ => stream_response (bs "data: y" ++ [nl; nl])) plain_media_type 3
    (ES.set_attempts (ES.set_body (ES.NewConfig 0) 0
       (Dec.mkDecoder (mkStream (line_bytes [(bs "data", bs "x")]) EOF) true)) 1)
  = Some (mkEvent (bs "message") [] [] (bs "y") false, None,
          ES.mkES (1000 * Millisecond) None (Some 1) (Dec.mkDecoder (mkStream [] EOF) true)
            [] (Some []) 2,
          [ECloseBody 0; ESleep (1000 * Millisecond); EDo 1 (Some [])]) /\
  ES.read_loop (fun _ _ => stream_response (bs "data: y" ++ [nl; nl])) plain_media_type 3
    (ES.set_attempts (ES.set_body (ES.NewConfig 0) 0
       (Dec.mkDecoder (mkStream (line_bytes [(bs "data", bs "x")]) EOF) true)) 1)
  = match ES.connect (fun _ _ => stream_response (bs "data: y" ++ [nl; nl])) plain_media_type 2
            (ES.set_dec (ES.set_attempts (ES.set_body (ES.NewConfig 0) 0
                           (Dec.mkDecoder (mkStream (line_bytes [(bs "data", bs "x")]) EOF) true)) 1)
                        (Dec.mkDecoder (mkStream [] EOF) true)) with
    | Some (s1, l1) => ES.after l1 (ES.read_loop (fun _ _ => stream_response (bs "data: y" ++ [nl; nl]))
                                      plain_media_type 2 s1)
    | None => None
    end.
Proof.
  split; [vm_compute; reflexivity|].
  apply (read_drops_partial_event _ _ 2 _ [(bs "data", bs "x")] EOF); [reflexivity | reflexivity | | reflexivity].
  constructor; [|constructor]. split; [|split; [not_in_lit | reflexivity]].
  apply good_name_lit; first [discriminate | reflexivity].
Defined.




